(** * Trivia session engine (Trivia/server.js): shallow embedding and proofs

    The server keeps five module-level variables ([triviaQuestions],
    [userScore], [questionNumber], [currentQuestion], [currentAnswer]) and
    three handlers that read and write them: GET /question, POST /answer and
    GET /score.  Each handler is embedded as a function from the state (and
    the request, the outcome of the call to the generation service and the
    random draw) to the new state and the response.

    Modelling conventions.
    - A JavaScript string is a list of code units; the code units are the 256
      values of [ascii], read as the Latin-1 range U+0000..U+00FF.  Case
      mapping and the white space class are the ECMAScript ones restricted to
      that range.
    - [userScore] and [questionNumber] are objects used as maps from user id
      to counter.  They are created by an object literal, so a property that
      is not their own is read from [Object.prototype]: the own properties
      are a finite map, and reading, testing, adding and assigning follow
      JavaScript for the values that can arise (numbers, strings, the
      inherited built-in functions and [Object.prototype] itself).
    - [Math.random()] is a rational [num/den]; the product with the length
      and [Math.floor] are computed exactly.
    - [null]/[undefined] are [None]. *)

From Stdlib Require Import Ascii String.
From stdpp Require Import base option list strings gmap.

Local Open Scope nat_scope.

(** ** JavaScript strings *)

Abbreviation jsstring := (list ascii).

(** String literals of the source. *)
Definition js (s : string) : jsstring := list_ascii_of_string s.

Definition code (c : ascii) : nat := nat_of_ascii c.

(** Code units that [String.prototype.trim] strips and the regular expression
    class [\s] accepts: TAB, LF, VT, FF, CR, SP and NBSP. *)
Definition isSpace (c : ascii) : bool :=
  let n := code c in
  ((9 <=? n) && (n <=? 13)) || (n =? 32) || (n =? 160).

(** The class [[\s\S]]: every code unit. *)
Definition anyChar (c : ascii) : bool := isSpace c || negb (isSpace c).

(** [String.prototype.toLowerCase] on one code unit: A-Z and the Latin-1
    capitals U+00C0..U+00DE, the multiplication sign U+00D7 excepted. *)
Definition lowerChar (c : ascii) : ascii :=
  let n := code c in
  if ((65 <=? n) && (n <=? 90))
     || ((192 <=? n) && (n <=? 222) && negb (n =? 215))
  then ascii_of_nat (n + 32) else c.

Definition toLowerCase (s : jsstring) : jsstring := map lowerChar s.

(** [Canonicalize] of a regular expression with flag [i] and without flag
    [u]: the upper case mapping, kept inside the range. *)
Definition canonicalize (c : ascii) : ascii :=
  let n := code c in
  if ((97 <=? n) && (n <=? 122))
     || ((224 <=? n) && (n <=? 254) && negb (n =? 247))
  then ascii_of_nat (n - 32) else c.

Fixpoint trimStart (s : jsstring) : jsstring :=
  match s with
  | c :: s' => if isSpace c then trimStart s' else s
  | [] => []
  end.

Definition trimEnd (s : jsstring) : jsstring := rev (trimStart (rev s)).

(** [String.prototype.trim]. *)
Definition trim (s : jsstring) : jsstring := trimEnd (trimStart s).

(** Truthiness of a value that is [null], [undefined] or a string: only a
    non-empty string is truthy. *)
Definition truthy (v : option jsstring) : bool :=
  match v with
  | Some (_ :: _) => true
  | _ => false
  end.

(** ** The stored questions (server.js, lines 24-39) *)

Record QuestionRecord := mkRecord { question : jsstring; answer : jsstring }.

Definition maxTriviaQuestions : nat := 100.

(** [storeTriviaQuestion]: [some] is [existsb], [push] appends at the end,
    [shift] removes the first element. *)
Definition storeTriviaQuestion (triviaQuestions : list QuestionRecord)
    (q a : jsstring) : list QuestionRecord :=
  let exists_ := existsb (fun r => bool_decide (question r = q)) triviaQuestions in
  if exists_ then triviaQuestions
  else
    let pushed := triviaQuestions ++ [mkRecord q a] in
    if maxTriviaQuestions <? length pushed then tail pushed else pushed.

(** A sequence of calls, oldest first. *)
Definition storeAll (triviaQuestions : list QuestionRecord)
    (adds : list QuestionRecord) : list QuestionRecord :=
  foldl (fun st r => storeTriviaQuestion st (question r) (answer r))
        triviaQuestions adds.

(** ** The counters (server.js, lines 26-27 and 46-55)

    [userScore] and [questionNumber] start as the object literal of lines
    26-27; their prototype is [Object.prototype]. *)

(** The values that reading a property of these objects can give. *)
Inductive value :=
| VUndefined
| VNum (n : nat)
| VNaN
| VStr (s : jsstring)
| VFunction (name : jsstring)  (* a built-in function, by its name *)
| VObjectPrototype.            (* the object Object.prototype *)

(** The function-valued properties of [Object.prototype] other than
    [constructor]; the name of each function is its property name. *)
Definition prototypeFunctions : list jsstring :=
  [js "__defineGetter__"; js "__defineSetter__"; js "hasOwnProperty";
   js "__lookupGetter__"; js "__lookupSetter__"; js "isPrototypeOf";
   js "propertyIsEnumerable"; js "toString"; js "valueOf"; js "toLocaleString"].

(** What [Object.prototype] holds under the name [k]: the accessor
    [__proto__] reads as [Object.prototype], [constructor] is the function
    [Object], ten more names are functions, every other name is absent. *)
Definition prototypeMember (k : jsstring) : option value :=
  if decide (k = js "__proto__") then Some VObjectPrototype
  else if decide (k = js "constructor") then Some (VFunction (js "Object"))
  else if decide (k ∈ prototypeFunctions) then Some (VFunction k)
  else None.

(** [obj[k]]: the own property, else the inherited one, else [undefined]. *)
Definition get (obj : gmap jsstring value) (k : jsstring) : value :=
  match obj !! k with
  | Some v => v
  | None => default VUndefined (prototypeMember k)
  end.

(** [!v] *)
Definition falsy (v : value) : bool :=
  match v with
  | VUndefined | VNum 0 | VNaN | VStr [] => true
  | _ => false
  end.

(** [obj[k] = v] for a number or a string [v]: an own property is updated;
    without one, the name [__proto__] reaches the setter of
    [Object.prototype], which ignores a value that is no object; every other
    name gets a new own property. *)
Definition assign (k : jsstring) (v : value) (obj : gmap jsstring value)
    : gmap jsstring value :=
  if bool_decide (k = js "__proto__") && bool_decide (obj !! k = None)
  then obj else <[k := v]> obj.

(** The text that a built-in function converts to. *)
Definition functionSource (name : jsstring) : jsstring :=
  js "function " ++ name ++ js "() { [native code] }".

(** [v + 1]: addition for a number, concatenation with ["1"] for a string
    and for what converts to one. *)
Definition plusOne (v : value) : value :=
  match v with
  | VNum n => VNum (n + 1)
  | VUndefined | VNaN => VNaN
  | VStr s => VStr (s ++ js "1")
  | VFunction name => VStr (functionSource name ++ js "1")
  | VObjectPrototype => VStr (js "[object Object]" ++ js "1")
  end.

Definition updateUserScore (userScore : gmap jsstring value) (userId : jsstring)
    (correct : bool) : gmap jsstring value :=
  let userScore1 :=
    if falsy (get userScore userId) then assign userId (VNum 0) userScore
    else userScore in
  if correct then assign userId (plusOne (get userScore1 userId)) userScore1
  else userScore1.

Definition updateQuestionNumber (questionNumber : gmap jsstring value)
    (userId : jsstring) : gmap jsstring value :=
  let questionNumber1 :=
    if falsy (get questionNumber userId) then assign userId (VNum 0) questionNumber
    else questionNumber in
  assign userId (plusOne (get questionNumber1 userId)) questionNumber1.

(** ** Regular expressions (server.js, lines 107, 116 and 118)

    The three patterns of the source are sequences of pattern characters,
    starred character classes (greedy [*] or lazy [*?]) and capture group
    parentheses.  [run] is the backtracking matcher of ECMAScript for such
    sequences, started at one position: alternatives are tried in the
    order of the standard (a greedy star first tries one more character, a
    lazy star first tries the rest of the pattern) and the first success is
    returned. *)

Inductive node :=
| Char (c : ascii)                          (* a pattern character, under flag i *)
| Star (cls : ascii → bool) (greedy : bool) (* a starred class, greedy or lazy *)
| Open (g : nat)                            (* opening parenthesis of group g *)
| Close (g : nat).                          (* closing parenthesis of group g *)

Inductive mark := Start (g : nat) | End (g : nat).

#[global] Instance mark_eq_dec : EqDecision mark.
Proof. solve_decision. Defined.

(** Positions of the group parentheses, most recent first. *)
Abbreviation marks := (list (mark * nat)).

Fixpoint lookupMark (k : mark) (m : marks) : option nat :=
  match m with
  | [] => None
  | (k', p) :: m' => if decide (k' = k) then Some p else lookupMark k m'
  end.

Definition charMatches (c x : ascii) : bool :=
  bool_decide (canonicalize x = canonicalize c).

(** [run r s pos m]: match [r] against [s], the input from position [pos]
    on; the result is the end position and the marks. *)
Fixpoint run (r : list node) : jsstring → nat → marks → option (nat * marks) :=
  match r with
  | [] => fun _ pos m => Some (pos, m)
  | Char c :: r' => fun s pos m =>
      match s with
      | x :: s' => if charMatches c x then run r' s' (S pos) m else None
      | [] => None
      end
  | Open g :: r' => fun s pos m => run r' s pos ((Start g, pos) :: m)
  | Close g :: r' => fun s pos m => run r' s pos ((End g, pos) :: m)
  | Star cls greedy :: r' =>
      fix star (s : jsstring) (pos : nat) (m : marks) {struct s} :=
        let rest := run r' s pos m in
        let more :=
          match s with
          | x :: s' => if cls x then star s' (S pos) m else None
          | [] => None
          end in
        if greedy
        then match more with Some res => Some res | None => rest end
        else match rest with Some res => Some res | None => more end
  end.

(** The leftmost match: [run] at position 0, then 1, and so on.  The result
    is the start, the end and the marks of the match. *)
Fixpoint execFrom (r : list node) (s : jsstring) (pos : nat)
    : option (nat * nat * marks) :=
  match run r s pos [] with
  | Some (e, m) => Some (pos, e, m)
  | None =>
      match s with
      | [] => None
      | _ :: s' => execFrom r s' (S pos)
      end
  end.

Definition exec (r : list node) (text : jsstring) : option (nat * nat * marks) :=
  execFrom r text 0.

Definition substring (text : jsstring) (from to : nat) : jsstring :=
  take (to - from) (drop from text).

(** [match[g]]: the text between the parentheses of group [g]. *)
Definition group (text : jsstring) (m : marks) (g : nat) : option jsstring :=
  match lookupMark (Start g) m, lookupMark (End g) m with
  | Some a, Some b => Some (substring text a b)
  | _, _ => None
  end.

(** [text.split(r)] for a pattern without groups.  [skip] counts the code
    units of the current match still to pass, [piece] is the text since
    the end of the last match.  An empty match at the start of a piece does
    not split. *)
Fixpoint splitLoop (r : list node) (s : jsstring) (skip : nat) (piece : jsstring)
    : list jsstring :=
  match s with
  | [] => [piece]
  | x :: s' =>
      match skip with
      | S k => splitLoop r s' k piece
      | 0 =>
          match run r s 0 [] with
          | None => splitLoop r s' 0 (piece ++ [x])
          | Some (0, _) =>
              match piece with
              | [] => splitLoop r s' 0 [x]
              | _ => piece :: splitLoop r s' 0 [x]
              end
          | Some (S e, _) => piece :: splitLoop r s' e []
          end
      end
  end.

Definition split (r : list node) (text : jsstring) : list jsstring :=
  match text with
  | [] => match run r [] 0 [] with Some _ => [] | None => [[]] end
  | _ => splitLoop r text 0 []
  end.

(** [text.replace(r, by)] for a pattern without flag [g] and a replacement
    without [$]: the leftmost match is replaced. *)
Definition replace (r : list node) (by_ text : jsstring) : jsstring :=
  match exec r text with
  | Some (b, e, _) => take b text ++ by_ ++ drop e text
  | None => text
  end.

(** [parts.join(sep)]. *)
Fixpoint join (sep : jsstring) (parts : list jsstring) : jsstring :=
  match parts with
  | [] => []
  | [p] => p
  | p :: ps => p ++ sep ++ join sep ps
  end.

Definition chars (s : string) : list node := map Char (js s).

(** The pattern of line 107, with flag i, in three parts (spaces added):
    Question:   \s* ( [\s\S]*? )   \s* Answer: \s* ( [\s\S]* )
    The first part is the question label, [questionPart] is the white space
    and the lazy group after it, [answerPart] is the white space before the
    answer label, the label, and [afterAnswer]: white space and the greedy
    group. *)
Definition afterAnswer : list node :=
  [Star isSpace true; Open 2; Star anyChar true; Close 2].

Definition answerPart : list node :=
  Star isSpace true :: chars "Answer:" ++ afterAnswer.

Definition questionPart : list node :=
  [Star isSpace true; Open 1; Star anyChar false; Close 1].

Definition questionAnswerRe : list node :=
  chars "Question:" ++ questionPart ++ answerPart.

(** The pattern of line 116: Answer: with flag i. *)
Definition answerRe : list node := chars "Answer:".

(** The pattern of line 118: Question: with flag i. *)
Definition questionRe : list node := chars "Question:".

(** Lines 107-121: the values of [question] and [answer] after the parse.
    Both groups take part in every match of [questionAnswerRe], so
    [match[1]] and [match[2]] are strings. *)
Definition parseQA (text : jsstring) : option jsstring * option jsstring :=
  match exec questionAnswerRe text with
  | Some (_, _, m) => (trim <$> group text m 1, trim <$> group text m 2)
  | None =>
      let parts := split answerRe text in
      if 2 <=? length parts
      then (Some (trim (replace questionRe [] (hd [] parts))),
            Some (trim (join (js "Answer:") (tail parts))))
      else (None, None)
  end.

(** ** The session state and the handlers *)

Record State := mkState {
  triviaQuestions : list QuestionRecord;
  userScore : gmap jsstring value;
  questionNumber : gmap jsstring value;
  currentQuestion : option jsstring;
  currentAnswer : option jsstring
}.

(** The state when the server starts (lines 24-27 and 42-43). *)
Definition initial : State := mkState [] ∅ ∅ None None.

(** What [await axios.post(...)] gives: the promise is rejected, or the
    response carries [response.data?.choices?.[0]?.message?.content]. *)
Inductive SourceResult :=
| Rejected
| Responded (content : option jsstring).

(** The value of [Math.random()]. *)
Record Random := mkRandom { num : nat; den : nat }.

(** [Math.floor(Math.random() * length)], the product taken exactly where
    the source rounds it to a double; the properties below use of the index
    only that it is below the length. *)
Definition randomIndex (rnd : Random) (length : nat) : nat :=
  (num rnd * length) / den rnd.

Inductive QuestionResponse :=
| ShowQuestion (q : jsstring)  (* renderChat(res, { question }) *)
| ParseFailure                 (* 500, 'Could not parse question/answer from AI response' *)
| Unavailable                  (* 500, 'Unable to get trivia question' *)
| QuestionThrown.              (* destructuring of undefined in the catch block *)

(** The catch block, lines 133-144. *)
Definition fallback (st : State) (rnd : Random) : State * QuestionResponse :=
  if 0 <? length (triviaQuestions st) then
    match triviaQuestions st !! randomIndex rnd (length (triviaQuestions st)) with
    | Some r => (st, ShowQuestion (question r))
    | None => (st, QuestionThrown)
    end
  else (st, Unavailable).

(** GET /question, lines 79-145. *)
Definition requestNewQuestion (st : State) (src : SourceResult) (rnd : Random)
    : State * QuestionResponse :=
  match src with
  | Rejected => fallback st rnd
  | Responded content =>
      let text := trim (default [] content) in
      let '(q, a) := parseQA text in
      if negb (truthy q) || negb (truthy a) then (st, ParseFailure)
      else
        let q := default [] q in
        let a := default [] a in
        (mkState (storeTriviaQuestion (triviaQuestions st) q a)
                 (userScore st) (questionNumber st) (Some q) (Some a),
         ShowQuestion q)
  end.

(** Line 158: the comparison that grades an answer. *)
Definition grade (submitted expected : jsstring) : bool :=
  bool_decide (trim (toLowerCase submitted) = trim (toLowerCase expected)).

(** The body of POST /answer: [req.body.answer] and [req.body.userId]. *)
Record AnswerBody := mkBody {
  bodyAnswer : option jsstring;
  bodyUserId : option jsstring
}.

(** [userId || 'default'] *)
Definition resolveUserId (userId : option jsstring) : jsstring :=
  if truthy userId then default [] userId else js "default".

Inductive AnswerResponse :=
| NoActiveQuestion   (* renderChat with error 'No active question found' *)
| Graded (q a userAnswer : jsstring) (correct : bool)
| AnswerThrown.      (* TypeError: toLowerCase read on undefined *)

(** No question is armed: the test of line 151. *)
Definition noActiveQuestion (st : State) : bool :=
  negb (truthy (currentQuestion st)) || negb (truthy (currentAnswer st)).

(** POST /answer, lines 147-169. *)
Definition submitAnswer (st : State) (body : AnswerBody) : State * AnswerResponse :=
  let userAnswer := bodyAnswer body in
  let userId := resolveUserId (bodyUserId body) in
  if noActiveQuestion st then (st, NoActiveQuestion)
  else
    match userAnswer with
    | None => (st, AnswerThrown)
    | Some submitted =>
        let expected := default [] (currentAnswer st) in
        let correct := grade submitted expected in
        let userScore' :=
          if correct then updateUserScore (userScore st) userId true
          else userScore st in
        let questionNumber' := updateQuestionNumber (questionNumber st) userId in
        (mkState (triviaQuestions st) userScore' questionNumber'
                 (currentQuestion st) (currentAnswer st),
         Graded (default [] (currentQuestion st)) expected submitted correct)
    end.

(** [obj[userId] || 0] *)
Definition counter (obj : gmap jsstring value) (userId : jsstring) : value :=
  if falsy (get obj userId) then VNum 0 else get obj userId.

(** GET /score, lines 171-177: the pair (score, questionsAnswered). *)
Definition getScore (st : State) (userId : option jsstring) : value * value :=
  let userId := resolveUserId userId in
  (counter (userScore st) userId, counter (questionNumber st) userId).

(** One request to the server and the state it leaves. *)
Inductive Request :=
| GetQuestion (src : SourceResult) (rnd : Random)
| PostAnswer (body : AnswerBody)
| GetScore (userId : option jsstring).

Definition step (st : State) (req : Request) : State :=
  match req with
  | GetQuestion src rnd => fst (requestNewQuestion st src rnd)
  | PostAnswer body => fst (submitAnswer st body)
  | GetScore _ => st
  end.

Definition serve (reqs : list Request) : State := foldl step initial reqs.

(** ** The parsing rule in the words of the specification

    The specification describes the parse by the first occurrences of the
    two labels.  [specParse] follows that description; it is compared with
    [parseQA], which follows the source, in the properties below. *)

Definition questionLabel : jsstring := js "Question:".
Definition answerLabel : jsstring := js "Answer:".

(** The label stands at the start of [s], letter case ignored. *)
Fixpoint ciPrefix (lbl s : jsstring) : bool :=
  match lbl, s with
  | [], _ => true
  | c :: lbl', x :: s' => charMatches c x && ciPrefix lbl' s'
  | _ :: _, [] => false
  end.

(** Position of the first occurrence of the label in [s]. *)
Fixpoint findLabel (lbl s : jsstring) : option nat :=
  if ciPrefix lbl s then Some 0
  else match s with
       | [] => None
       | _ :: s' => S <$> findLabel lbl s'
       end.

(** The text without the first occurrence of the label. *)
Definition stripLabel (lbl text : jsstring) : jsstring :=
  match findLabel lbl text with
  | Some i => take i text ++ drop (i + length lbl) text
  | None => text
  end.

(** The text with every occurrence of the answer label, found from left to
    right, written as [Answer:]; [skip] counts the code units of the
    occurrence just found that are still to pass. *)
Fixpoint relabel (skip : nat) (s : jsstring) : jsstring :=
  match s with
  | [] => []
  | x :: s' =>
      match skip with
      | S k => relabel k s'
      | 0 => if ciPrefix answerLabel s then js "Answer:" ++ relabel 6 s'
             else x :: relabel 0 s'
      end
  end.

Definition rejoin (text : jsstring) : jsstring := relabel 0 text.

(** The strict shape: the text between the first question label and the
    first answer label after it, and the text after that answer label. *)
Definition specStrict (text : jsstring) : option (jsstring * jsstring) :=
  i ← findLabel questionLabel text;
  let rest := drop (i + length questionLabel) text in
  j ← findLabel answerLabel rest;
  Some (trim (take j rest), trim (drop (j + length answerLabel) rest)).

(** The loose shape: the text before the first answer label, without a
    question label, and the text after that answer label, rejoined. *)
Definition specLoose (text : jsstring) : option (jsstring * jsstring) :=
  j ← findLabel answerLabel text;
  Some (trim (stripLabel questionLabel (take j text)),
        trim (rejoin (drop (j + length answerLabel) text))).

Definition specParse (text : jsstring) : option jsstring * option jsstring :=
  match specStrict text with
  | Some (q, a) => (Some q, Some a)
  | None =>
      match specLoose text with
      | Some (q, a) => (Some q, Some a)
      | None => (None, None)
      end
  end.

(** A strategy yields a non-empty question and a non-empty answer. *)
Definition yields (p : option (jsstring * jsstring)) : bool :=
  match p with
  | Some (_ :: _, _ :: _) => true
  | _ => false
  end.

(** Number of white space code units at the start of [s]. *)
Fixpoint spaces (s : jsstring) : nat :=
  match s with
  | c :: s' => if isSpace c then S (spaces s') else 0
  | [] => 0
  end.

(** End position and marks of a match of the part of [questionAnswerRe]
    that starts at its lazy star, begun at position [pos] on input [s] whose
    first answer label is at [j]. *)
Definition strictMarks (s : jsstring) (pos j : nat) (m : marks) : nat * marks :=
  (pos + length s,
   (End 2, pos + length s)
   :: (Start 2, pos + j + 7 + spaces (drop (j + 7) s))
   :: (End 1, pos + length (trimEnd (take j s)))
   :: m).

(** The leftmost match of [questionAnswerRe] in closed form: the first
    question label at [i], then the first answer label in the text after
    that label and its white space. *)
Definition strictMatch (s : jsstring) (pos : nat) : option (nat * nat * marks) :=
  i ← findLabel questionLabel s;
  let rest := drop (i + 9) s in
  let b := pos + i + 9 + spaces rest in
  j ← findLabel answerLabel (trimStart rest);
  let '(e, m) := strictMarks (trimStart rest) b j [(Start 1, b)] in
  Some (pos + i, e, m).

(** ** Invariant and sample inputs *)

(** A value that counts: absent, or a number. *)
Definition isCount (v : value) : Prop := v = VUndefined ∨ ∃ n, v = VNum n.

(** The number that such a value stands for, absent read as 0. *)
Definition count (v : value) : nat :=
  match v with
  | VNum n => n
  | _ => 0
  end.

(** The test of line 123 on the parse of a response. *)
Definition parseFails (content : option jsstring) : bool :=
  let '(q, a) := parseQA (trim (default [] content)) in
  negb (truthy q) || negb (truthy a).

(** A response of the generation service in the requested format, and the
    state of a fresh server after GET /question received it. *)
Definition generated : jsstring :=
  js "Question: What is the capital of France?
Answer: Paris".

Definition armed : State :=
  fst (requestNewQuestion initial (Responded (Some generated)) (mkRandom 0 1)).

(** A response without labels. *)
Definition unlabelled : jsstring := js "I am sorry, I cannot do that.".

(** One more record than the store holds, with pairwise different
    questions. *)
Definition distinctRecords : list QuestionRecord :=
  (λ n, mkRecord [ascii_of_nat n] (js "yes")) <$> seq 0 (maxTriviaQuestions + 1).

(** ** Reachable states, traces, the prompt format and the pages *)

(** A value that the parse can arm or store: non-empty and without
    surrounding white space. *)
Definition clean (s : jsstring) : Prop := s ≠ [] ∧ trim s = s.

(** What holds of the state after every sequence of requests: the stored
    questions are pairwise different, stored and armed texts are clean, and
    either nothing is armed and nothing is stored, or the armed question is
    a stored one. *)
Definition consistent (st : State) : Prop :=
  NoDup (question <$> triviaQuestions st)
  ∧ Forall (λ r, clean (question r) ∧ clean (answer r)) (triviaQuestions st)
  ∧ match currentQuestion st, currentAnswer st with
    | None, None => triviaQuestions st = []
    | Some q, Some a => clean q ∧ clean a ∧ q ∈ question <$> triviaQuestions st
    | _, _ => False
    end.

(** The answers of user [userId] that POST /answer graded along the
    requests [reqs] served from state [st]: how many were graded correct,
    and how many were graded at all, both read off the responses. *)
Fixpoint tally (userId : jsstring) (st : State) (reqs : list Request) : nat * nat :=
  match reqs with
  | [] => (0, 0)
  | req :: reqs' =>
      let '(c, g) := tally userId (step st req) reqs' in
      match req with
      | PostAnswer body =>
          match snd (submitAnswer st body) with
          | Graded _ _ _ correct =>
              if decide (resolveUserId (bodyUserId body) = userId)
              then (if correct then S c else c, S g)
              else (c, g)
          | _ => (c, g)
          end
      | _ => (c, g)
      end
  end.

(** The format that the system message of line 89 asks the service for. *)
Definition format (q a : jsstring) : jsstring :=
  js "Question: " ++ q ++ js "
Answer: " ++ a.

(** The data of a page: the values are [null], strings and booleans. *)
Inductive viewValue :=
| VNull
| VText (s : jsstring)
| VBool (b : bool).

(** [renderChat], lines 58-68: the object spread puts the overrides over
    the defaults; the result is the data given to the template [chat]. *)
Definition defaults : gmap string viewValue :=
  <["response" := VNull]> (<["question" := VNull]> (<["answer" := VNull]>
  (<["userAnswer" := VNull]> (<["correct" := VNull]> (<["error" := VNull]> ∅))))).

Definition renderChat (overrides : gmap string viewValue) : gmap string viewValue :=
  overrides ∪ defaults.

(** GET /game, lines 75-77. *)
Definition gamePage : gmap string viewValue := renderChat ∅.

(** The page of GET /question (lines 132 and 140); the other responses are
    JSON errors. *)
Definition questionPage (r : QuestionResponse) : option (gmap string viewValue) :=
  match r with
  | ShowQuestion q => Some (renderChat {["question" := VText q]})
  | _ => None
  end.

(** The page of POST /answer (lines 152-155 and 163-168). *)
Definition answerPage (r : AnswerResponse) : option (gmap string viewValue) :=
  match r with
  | NoActiveQuestion =>
      Some (renderChat (<["question" := VText (js "Please get a new question first!")]>
                          {["error" := VText (js "No active question found")]}))
  | Graded q a userAnswer correct =>
      Some (renderChat (<["question" := VText q]> (<["answer" := VText a]>
                          (<["userAnswer" := VText userAnswer]>
                             {["correct" := VBool correct]}))))
  | AnswerThrown => None
  end.

(** * Properties *)

(** ** Strings *)

Lemma isSpace_lowerChar c : isSpace (lowerChar c) = isSpace c.
Proof. destruct c as [[] [] [] [] [] [] [] []]; reflexivity. Qed.

Lemma trimStart_toLowerCase s : trimStart (toLowerCase s) = toLowerCase (trimStart s).
Proof.
  induction s as [|c s IH]; simpl; [done|].
  rewrite isSpace_lowerChar. by destruct (isSpace c).
Qed.

Lemma rev_toLowerCase s : rev (toLowerCase s) = toLowerCase (rev s).
Proof. unfold toLowerCase. by rewrite map_rev. Qed.

Lemma trim_toLowerCase s : trim (toLowerCase s) = toLowerCase (trim s).
Proof.
  unfold trim, trimEnd.
  by rewrite trimStart_toLowerCase, rev_toLowerCase, trimStart_toLowerCase,
    rev_toLowerCase.
Qed.

(** ** Grading *)

(** C2: [grade] is true exactly when the two strings, lowercased and trimmed
    of surrounding white space, are equal; the order of the two
    normalisation steps does not matter; and the two examples. *)
Theorem grade_normalised_equality :
  (∀ submitted expected,
      (grade submitted expected = true
       ↔ trim (toLowerCase submitted) = trim (toLowerCase expected))
      ∧ (grade submitted expected = true
         ↔ toLowerCase (trim submitted) = toLowerCase (trim expected)))
  ∧ grade (js " Paris ") (js "paris") = true
  ∧ grade (js "Paris") (js "France") = false.
Proof.
  split; [|split; reflexivity].
  intros submitted expected. unfold grade.
  rewrite bool_decide_eq_true, !trim_toLowerCase. tauto.
Qed.

(** ** The stored questions *)

Lemma existsb_question_true store q :
  existsb (fun r => bool_decide (question r = q)) store = true
  ↔ q ∈ question <$> store.
Proof.
  rewrite existsb_exists, list_elem_of_fmap. split.
  - intros (r & Hin & Hq). apply bool_decide_eq_true in Hq.
    exists r. split; [done|]. by apply list_elem_of_In.
  - intros (r & -> & Hin). exists r. split; [by apply list_elem_of_In|].
    by apply bool_decide_eq_true.
Qed.

Lemma existsb_question_false store q :
  existsb (fun r => bool_decide (question r = q)) store = false
  ↔ q ∉ question <$> store.
Proof.
  rewrite <- existsb_question_true.
  destruct (existsb _ store); naive_solver.
Qed.

Lemma storeTriviaQuestion_present store q a :
  q ∈ question <$> store → storeTriviaQuestion store q a = store.
Proof.
  intros H. apply existsb_question_true in H.
  unfold storeTriviaQuestion. by rewrite H.
Qed.

Lemma storeTriviaQuestion_fresh store q a :
  q ∉ question <$> store →
  storeTriviaQuestion store q a =
    if maxTriviaQuestions <? length (store ++ [mkRecord q a])
    then tail (store ++ [mkRecord q a]) else store ++ [mkRecord q a].
Proof.
  intros H. apply existsb_question_false in H.
  unfold storeTriviaQuestion. by rewrite H.
Qed.

Lemma storeTriviaQuestion_length store q a :
  length store ≤ maxTriviaQuestions →
  length (storeTriviaQuestion store q a) ≤ maxTriviaQuestions.
Proof.
  intros Hlen. unfold storeTriviaQuestion.
  destruct (existsb _ store); [done|]. cbv zeta.
  destruct (Nat.ltb_spec maxTriviaQuestions (length (store ++ [mkRecord q a])))
    as [Hlt|Hge]; [|done].
  destruct store as [|r store]; simpl in *; [lia|].
  rewrite length_app in *. simpl in *. lia.
Qed.

Lemma storeTriviaQuestion_stored store q a :
  q ∈ question <$> storeTriviaQuestion store q a.
Proof.
  destruct (decide (q ∈ question <$> store)) as [Hin|Hout].
  - by rewrite storeTriviaQuestion_present.
  - rewrite storeTriviaQuestion_fresh by done.
    destruct (Nat.ltb_spec maxTriviaQuestions (length (store ++ [mkRecord q a])))
      as [Hlt|Hge].
    + destruct store as [|r store].
      * simpl in Hlt. unfold maxTriviaQuestions in Hlt. lia.
      * simpl. rewrite fmap_app. set_solver.
    + rewrite fmap_app. set_solver.
Qed.

Lemma storeAll_length store adds :
  length store ≤ maxTriviaQuestions →
  length (storeAll store adds) ≤ maxTriviaQuestions.
Proof.
  revert store. induction adds as [|r adds IH]; intros store Hlen; [done|].
  apply IH. by apply storeTriviaQuestion_length.
Qed.

(** Distinct questions added to a store within its bound: the result is
    the last [maxTriviaQuestions] records of the store followed by the
    additions. *)
Lemma storeAll_distinct store adds :
  NoDup (question <$> (store ++ adds)) →
  length store ≤ maxTriviaQuestions →
  storeAll store adds =
    drop (length (store ++ adds) - maxTriviaQuestions) (store ++ adds).
Proof.
  revert store. induction adds as [|r adds IH]; intros store Hnd Hlen.
  - simpl. rewrite app_nil_r.
    replace (length store - maxTriviaQuestions) with 0 by lia. done.
  - assert (Hfresh : question r ∉ question <$> store).
    { rewrite fmap_app in Hnd. apply NoDup_app in Hnd as (_ & Hdisj & _).
      intros Hin. apply (Hdisj _ Hin). rewrite fmap_cons. by left. }
    change (storeAll store (r :: adds))
      with (storeAll (storeTriviaQuestion store (question r) (answer r)) adds).
    rewrite storeTriviaQuestion_fresh by done.
    replace (mkRecord (question r) (answer r)) with r by (by destruct r).
    replace (store ++ r :: adds) with ((store ++ [r]) ++ adds) in *
      by (by rewrite <- app_assoc).
    destruct (Nat.ltb_spec maxTriviaQuestions (length (store ++ [r]))) as [Hlt|Hge].
    + rewrite length_app in Hlt. simpl in Hlt.
      destruct store as [|r0 store]; [unfold maxTriviaQuestions in *; simpl in *; lia|].
      simpl tail. rewrite IH.
      * simpl app. simpl length.
        assert (Hm : maxTriviaQuestions ≤ length ((store ++ [r]) ++ adds))
          by (rewrite !length_app; simpl in *; lia).
        by rewrite (Nat.sub_succ_l _ _ Hm).
      * change (NoDup (question r0 :: (question <$> (store ++ [r]) ++ adds))) in Hnd.
        by apply NoDup_cons in Hnd as [_ ?].
      * rewrite length_app. simpl in *. lia.
    + by apply IH.
Qed.

(** ** The counters *)

Lemma lookup_assign_ne (k k' : jsstring) (v : value) (obj : gmap jsstring value) :
  k ≠ k' → assign k v obj !! k' = obj !! k'.
Proof.
  intros. unfold assign. destruct (_ && _); [done|]. by rewrite lookup_insert_ne.
Qed.

Lemma get_assign_ne k k' v obj : k ≠ k' → get (assign k v obj) k' = get obj k'.
Proof. intros. unfold get. by rewrite lookup_assign_ne. Qed.

Lemma get_insert (k : jsstring) (v : value) (obj : gmap jsstring value) : get (<[k := v]> obj) k = v.
Proof. unfold get. by rewrite lookup_insert_eq. Qed.

(** Where the value read is absent or a number, an assignment sets an own
    property: the setter of [__proto__] is not in play. *)
Lemma assign_count k v obj : isCount (get obj k) → assign k v obj = <[k := v]> obj.
Proof.
  intros H. unfold assign.
  destruct (bool_decide (k = js "__proto__")) eqn:Ek; [|done].
  destruct (bool_decide (obj !! k = None)) eqn:Eo; [|done].
  apply bool_decide_eq_true in Ek, Eo. exfalso.
  unfold get in H. rewrite Eo, Ek in H.
  destruct H as [H|[n H]]; discriminate H.
Qed.

Lemma counter_count obj k : isCount (get obj k) → counter obj k = VNum (count (get obj k)).
Proof.
  unfold counter. intros [->|[n ->]]; [done|]. by destruct n.
Qed.

Lemma updateQuestionNumber_count obj k :
  isCount (get obj k) →
  get (updateQuestionNumber obj k) k = VNum (count (get obj k) + 1).
Proof.
  intros H. unfold updateQuestionNumber.
  destruct (falsy (get obj k)) eqn:E.
  - rewrite (assign_count k (VNum 0)) by done.
    rewrite assign_count by (rewrite get_insert; right; by eexists).
    rewrite !get_insert. destruct H as [H|[n H]]; rewrite H in *; [done|].
    by destruct n.
  - rewrite assign_count by done. rewrite get_insert.
    destruct H as [H|[n H]]; rewrite H in *; done.
Qed.

Lemma updateUserScore_count obj k :
  isCount (get obj k) →
  get (updateUserScore obj k true) k = VNum (count (get obj k) + 1).
Proof.
  intros H. unfold updateUserScore.
  destruct (falsy (get obj k)) eqn:E.
  - rewrite (assign_count k (VNum 0)) by done.
    rewrite assign_count by (rewrite get_insert; right; by eexists).
    rewrite !get_insert. destruct H as [H|[n H]]; rewrite H in *; [done|].
    by destruct n.
  - rewrite assign_count by done. rewrite get_insert.
    destruct H as [H|[n H]]; rewrite H in *; done.
Qed.

Lemma lookup_updateQuestionNumber_ne obj k k' :
  k ≠ k' → updateQuestionNumber obj k !! k' = obj !! k'.
Proof.
  intros. unfold updateQuestionNumber.
  rewrite lookup_assign_ne by done.
  destruct (falsy _); [|done]. by rewrite lookup_assign_ne.
Qed.

Lemma lookup_updateUserScore_ne obj k k' correct :
  k ≠ k' → updateUserScore obj k correct !! k' = obj !! k'.
Proof.
  intros. unfold updateUserScore.
  destruct correct.
  - rewrite lookup_assign_ne by done.
    destruct (falsy _); [|done]. by rewrite lookup_assign_ne.
  - destruct (falsy _); [|done]. by rewrite lookup_assign_ne.
Qed.

Lemma get_updateQuestionNumber_ne obj k k' :
  k ≠ k' → get (updateQuestionNumber obj k) k' = get obj k'.
Proof. intros. unfold get. by rewrite lookup_updateQuestionNumber_ne. Qed.

Lemma get_updateUserScore_ne obj k k' correct :
  k ≠ k' → get (updateUserScore obj k correct) k' = get obj k'.
Proof. intros. unfold get. by rewrite lookup_updateUserScore_ne. Qed.

(** ** The handlers *)

Lemma resolveUserId_given c userId : resolveUserId (Some (c :: userId)) = c :: userId.
Proof. done. Qed.

Lemma resolveUserId_omitted : resolveUserId None = js "default".
Proof. done. Qed.

Lemma noActiveQuestion_unset st :
  currentQuestion st = None ∨ currentAnswer st = None → noActiveQuestion st = true.
Proof.
  unfold noActiveQuestion. intros [-> | ->]; simpl; [done|].
  by destruct (truthy (currentQuestion st)).
Qed.

Lemma randomIndex_lt rnd n : num rnd < den rnd → 0 < n → randomIndex rnd n < n.
Proof.
  intros Hr Hn. unfold randomIndex.
  apply Nat.Div0.div_lt_upper_bound. nia.
Qed.

Lemma fallback_state st rnd : fst (fallback st rnd) = st.
Proof.
  unfold fallback. destruct (0 <? _); [|done]. by destruct (_ !! _).
Qed.

Lemma fallback_stored st rnd :
  num rnd < den rnd → triviaQuestions st ≠ [] →
  ∃ r, triviaQuestions st !! randomIndex rnd (length (triviaQuestions st)) = Some r
       ∧ fallback st rnd = (st, ShowQuestion (question r)).
Proof.
  intros Hr Hne. unfold fallback.
  assert (Hpos : 0 < length (triviaQuestions st))
    by (destruct (triviaQuestions st); simpl; [done|lia]).
  destruct (Nat.ltb_spec 0 (length (triviaQuestions st))) as [_|?]; [|lia].
  destruct (lookup_lt_is_Some_2 (triviaQuestions st)
              (randomIndex rnd (length (triviaQuestions st)))) as [r Hr'].
  { by apply randomIndex_lt. }
  exists r. by rewrite Hr'.
Qed.

Lemma fallback_empty st rnd :
  triviaQuestions st = [] → fallback st rnd = (st, Unavailable).
Proof. intros H. unfold fallback. by rewrite H. Qed.

Lemma requestNewQuestion_counters st src rnd :
  userScore (fst (requestNewQuestion st src rnd)) = userScore st
  ∧ questionNumber (fst (requestNewQuestion st src rnd)) = questionNumber st.
Proof.
  destruct src as [|content]; simpl.
  - by rewrite fallback_state.
  - destruct (parseQA _) as [q a].
    by destruct (negb (truthy q) || negb (truthy a)).
Qed.

Lemma requestNewQuestion_store_length st src rnd :
  length (triviaQuestions st) ≤ maxTriviaQuestions →
  length (triviaQuestions (fst (requestNewQuestion st src rnd))) ≤ maxTriviaQuestions.
Proof.
  intros Hlen. destruct src as [|content]; simpl.
  - by rewrite fallback_state.
  - destruct (parseQA _) as [q a].
    destruct (negb (truthy q) || negb (truthy a)); [done|].
    by apply storeTriviaQuestion_length.
Qed.

Lemma submitAnswer_store st body :
  triviaQuestions (fst (submitAnswer st body)) = triviaQuestions st.
Proof.
  unfold submitAnswer. destruct (noActiveQuestion st); [done|].
  by destruct (bodyAnswer body).
Qed.

Lemma foldl_step_invariant (P : State → Prop) reqs st :
  (∀ st req, P st → P (step st req)) → P st → P (foldl step st reqs).
Proof.
  intros Hstep. revert st. induction reqs as [|req reqs IH]; intros st H; [done|].
  simpl. apply IH. by apply Hstep.
Qed.

(** What one request does to the two counters of a user whose counters are
    absent or numbers: they stay so, and go up by one exactly when POST
    /answer grades an answer of that user (the score, when it grades it
    correct). *)
Lemma step_counts st req userId :
  isCount (get (userScore st) userId) →
  isCount (get (questionNumber st) userId) →
  let graded :=
    match req with
    | PostAnswer body =>
        match snd (submitAnswer st body) with
        | Graded _ _ _ correct =>
            if decide (resolveUserId (bodyUserId body) = userId)
            then Some correct else None
        | _ => None
        end
    | _ => None
    end in
  isCount (get (userScore (step st req)) userId)
  ∧ isCount (get (questionNumber (step st req)) userId)
  ∧ count (get (userScore (step st req)) userId)
    = count (get (userScore st) userId)
      + match graded with Some true => 1 | _ => 0 end
  ∧ count (get (questionNumber (step st req)) userId)
    = count (get (questionNumber st) userId)
      + match graded with Some _ => 1 | None => 0 end.
Proof.
  intros Hs Hq. destruct req as [src rnd|body|u]; simpl.
  - destruct (requestNewQuestion_counters st src rnd) as [-> ->].
    repeat split; try done; lia.
  - unfold submitAnswer. destruct (noActiveQuestion st);
      [simpl; repeat split; try done; lia|].
    destruct (bodyAnswer body) as [submitted|];
      [|simpl; repeat split; try done; lia].
    cbn [fst snd userScore questionNumber].
    destruct (decide (resolveUserId (bodyUserId body) = userId)) as [<-|Hne].
    + rewrite updateQuestionNumber_count by done.
      destruct (grade _ _).
      * rewrite updateUserScore_count by done.
        repeat split; try done; right; by eexists.
      * repeat split; try done; try lia. right; by eexists.
    + rewrite get_updateQuestionNumber_ne by done.
      destruct (grade _ _).
      * rewrite get_updateUserScore_ne by done.
        repeat split; try done; lia.
      * repeat split; try done; lia.
  - repeat split; try done; lia.
Qed.

(** One graded answer of a user whose counters are absent or numbers. *)
Lemma submitAnswer_graded st userId submitted :
  noActiveQuestion st = false →
  let playerId := resolveUserId userId in
  isCount (get (userScore st) playerId) →
  isCount (get (questionNumber st) playerId) →
  let correct := grade submitted (default [] (currentAnswer st)) in
  let st1 := fst (submitAnswer st (mkBody (Some submitted) userId)) in
  snd (submitAnswer st (mkBody (Some submitted) userId))
  = Graded (default [] (currentQuestion st)) (default [] (currentAnswer st))
      submitted correct
  ∧ get (questionNumber st1) playerId
    = VNum (count (get (questionNumber st) playerId) + 1)
  ∧ isCount (get (userScore st1) playerId)
  ∧ count (get (userScore st1) playerId)
    = count (get (userScore st) playerId) + (if correct then 1 else 0)
  ∧ currentQuestion st1 = currentQuestion st
  ∧ currentAnswer st1 = currentAnswer st
  ∧ noActiveQuestion st1 = false.
Proof.
  intros Hact playerId Hs Hq correct st1. unfold st1, submitAnswer.
  rewrite Hact. cbn [bodyAnswer bodyUserId fst snd userScore questionNumber
                       currentQuestion currentAnswer].
  fold playerId. fold correct.
  split; [done|]. split; [by apply updateQuestionNumber_count|].
  split; [|split; [|split; [done|split; [done|]]]].
  - destruct correct; [|done]. rewrite updateUserScore_count by done.
    right. by eexists.
  - destruct correct; [|lia]. by rewrite updateUserScore_count.
  - unfold noActiveQuestion in *. done.
Qed.

Lemma get_empty_plain id : prototypeMember id = None → get ∅ id = VUndefined.
Proof. intros H. unfold get. by rewrite lookup_empty, H. Qed.

(** On a server started fresh, the counters of an id that names no member
    of [Object.prototype] are always absent or numbers. *)
Lemma serve_isCount reqs id :
  prototypeMember id = None →
  isCount (get (userScore (serve reqs)) id)
  ∧ isCount (get (questionNumber (serve reqs)) id).
Proof.
  intros H. unfold serve.
  apply (foldl_step_invariant
           (λ st, isCount (get (userScore st) id)
                  ∧ isCount (get (questionNumber st) id))).
  - intros st req [Hs Hq].
    destruct (step_counts st req id Hs Hq) as (? & ? & _). done.
  - simpl. rewrite (get_empty_plain _ H). split; by left.
Qed.

(** ** White space *)

Lemma trimStart_spaces s : trimStart s = drop (spaces s) s.
Proof. induction s as [|c s IH]; simpl; [done|]. by destruct (isSpace c). Qed.

Lemma spaces_length s : spaces s + length (trimStart s) = length s.
Proof. induction s as [|c s IH]; simpl; [done|]. destruct (isSpace c); simpl; lia. Qed.

Lemma trimStart_idemp s : trimStart (trimStart s) = trimStart s.
Proof.
  induction s as [|c s IH]; simpl; [done|].
  destruct (isSpace c) eqn:E; [done|]. simpl. by rewrite E.
Qed.

Lemma trimStart_drop s k : k ≤ spaces s → trimStart (drop k s) = trimStart s.
Proof.
  revert k. induction s as [|c s IH]; intros k Hk; [by destruct k|].
  destruct k as [|k]; [done|]. simpl in *.
  destruct (isSpace c); [|lia]. apply IH. lia.
Qed.

Lemma drop_lt_spaces s k :
  k < spaces s → ∃ x t, drop k s = x :: t ∧ isSpace x = true.
Proof.
  revert k. induction s as [|c s IH]; intros k Hk; simpl in *; [lia|].
  destruct (isSpace c) eqn:E; [|lia].
  destruct k as [|k]; [by exists c, s|]. apply IH. lia.
Qed.

(** [trimEnd], one code unit at a time. *)
Lemma trimStart_snoc s x :
  trimStart (s ++ [x]) =
    match trimStart s with
    | [] => if isSpace x then [] else [x]
    | t => t ++ [x]
    end.
Proof.
  induction s as [|c s IH]; simpl; [done|].
  by destruct (isSpace c).
Qed.

Lemma trimEnd_cons x s :
  trimEnd (x :: s) =
    match trimEnd s with
    | [] => if isSpace x then [] else [x]
    | t => x :: t
    end.
Proof.
  unfold trimEnd. simpl. rewrite trimStart_snoc.
  destruct (trimStart (rev s)) as [|c t]; simpl.
  - destruct (isSpace x); reflexivity.
  - rewrite rev_app_distr. simpl.
    destruct (rev t ++ [c]) eqn:E; [by destruct (rev t)|done].
Qed.

Lemma trimEnd_prefix s : take (length (trimEnd s)) s = trimEnd s.
Proof.
  induction s as [|x s IH]; [done|].
  rewrite trimEnd_cons. destruct (trimEnd s) as [|c t] eqn:E.
  - by destruct (isSpace x).
  - simpl in *. by rewrite IH.
Qed.

Lemma trimEnd_length s : length (trimEnd s) ≤ length s.
Proof.
  rewrite <- (trimEnd_prefix s) at 1. rewrite length_take. lia.
Qed.

Lemma trimStart_trimEnd s : trimStart (trimEnd s) = trimEnd (trimStart s).
Proof.
  induction s as [|x s IH]; [done|].
  rewrite trimEnd_cons. simpl trimStart at 2.
  destruct (isSpace x) eqn:E.
  - destruct (trimEnd s) as [|c t] eqn:Et.
    + by rewrite <- IH.
    + rewrite <- IH. simpl. by rewrite E.
  - rewrite trimEnd_cons.
    destruct (trimEnd s) as [|c t] eqn:Et; simpl; by rewrite E.
Qed.

Lemma trimEnd_idemp s : trimEnd (trimEnd s) = trimEnd s.
Proof. unfold trimEnd. by rewrite rev_involutive, trimStart_idemp. Qed.

Lemma trim_trimStart s : trim (trimStart s) = trim s.
Proof. unfold trim. by rewrite trimStart_idemp. Qed.

Lemma trim_trimEnd s : trim (trimEnd s) = trim s.
Proof. unfold trim. by rewrite trimStart_trimEnd, trimEnd_idemp. Qed.

Lemma trimEnd_spaces s : trimStart s = [] → trimEnd s = [].
Proof.
  induction s as [|x s IH]; [done|]. simpl.
  destruct (isSpace x) eqn:E; [|done].
  intros H. by rewrite trimEnd_cons, (IH H), E.
Qed.

(** ** Labels *)

Lemma findLabel_unfold lbl s :
  findLabel lbl s =
    if ciPrefix lbl s then Some 0
    else match s with
         | [] => None
         | _ :: s' => S <$> findLabel lbl s'
         end.
Proof. by destruct s. Qed.

Lemma space_not_A x : isSpace x && charMatches "A" x = false.
Proof. destruct x as [[] [] [] [] [] [] [] []]; reflexivity. Qed.

Lemma ciPrefix_answer_cons x s :
  ciPrefix answerLabel (x :: s) = true → isSpace x = false.
Proof.
  change (ciPrefix answerLabel (x :: s))
    with (charMatches "A" x && ciPrefix (js "nswer:") s).
  pose proof (space_not_A x). destruct (isSpace x), (charMatches "A" x); done.
Qed.

Lemma ciPrefix_answer_space x s :
  isSpace x = true → ciPrefix answerLabel (x :: s) = false.
Proof.
  intros Hx. destruct (ciPrefix answerLabel (x :: s)) eqn:E; [|done].
  apply ciPrefix_answer_cons in E. congruence.
Qed.

Lemma ciPrefix_length lbl s : ciPrefix lbl s = true → length lbl ≤ length s.
Proof.
  revert s. induction lbl as [|c lbl IH]; intros s H; simpl; [lia|].
  destruct s as [|x s]; [done|]. simpl in H.
  apply andb_prop in H as [_ H]. apply IH in H. simpl. lia.
Qed.

Lemma findLabel_None_tail lbl x s :
  findLabel lbl (x :: s) = None → findLabel lbl s = None.
Proof.
  rewrite (findLabel_unfold lbl (x :: s)). destruct (ciPrefix lbl (x :: s)); [done|].
  by destruct (findLabel lbl s).
Qed.

Lemma findLabel_None_drop lbl s k :
  findLabel lbl s = None → findLabel lbl (drop k s) = None.
Proof.
  revert s. induction k as [|k IH]; intros s H; [done|].
  destruct s as [|x s]; [done|]. simpl. apply IH. by eapply findLabel_None_tail.
Qed.

Lemma findLabel_Some lbl s j :
  findLabel lbl s = Some j → ciPrefix lbl (drop j s) = true ∧ j + length lbl ≤ length s.
Proof.
  revert j. induction s as [|x s IH]; intros j; rewrite findLabel_unfold.
  - destruct (ciPrefix lbl []) eqn:E; [|done]. intros [= <-].
    split; [done|]. by apply ciPrefix_length in E.
  - destruct (ciPrefix lbl (x :: s)) eqn:E.
    + intros [= <-]. split; [done|]. by apply ciPrefix_length in E.
    + destruct (findLabel lbl s) as [j'|]; [|done]. intros [= <-].
      destruct (IH j' eq_refl) as [H1 H2]. split; [done|]. simpl. lia.
Qed.

(** [findLabel] gives the first occurrence. *)
Lemma findLabel_first lbl s j k :
  findLabel lbl s = Some j → k < j → ciPrefix lbl (drop k s) = false.
Proof.
  revert j k. induction s as [|x s IH]; intros j k; rewrite findLabel_unfold.
  - destruct (ciPrefix lbl []); [|done]. intros [= <-]. lia.
  - destruct (ciPrefix lbl (x :: s)) eqn:E; [intros [= <-]; lia|].
    destruct (findLabel lbl s) as [j'|]; [|done]. intros [= <-] Hk.
    destruct k as [|k]; [done|]. simpl. apply (IH j'); [done|lia].
Qed.

(** White space before the text does not hide or move an answer label. *)
Lemma findLabel_answer_spaces s :
  findLabel answerLabel s
  = (λ j, spaces s + j) <$> findLabel answerLabel (trimStart s).
Proof.
  induction s as [|x s IH].
  - simpl trimStart. by destruct (findLabel answerLabel []).
  - simpl trimStart. simpl spaces. destruct (isSpace x) eqn:E.
    + rewrite findLabel_unfold, (ciPrefix_answer_space x s E), IH.
      by destruct (findLabel answerLabel (trimStart s)).
    + by destruct (findLabel answerLabel (x :: s)).
Qed.

Lemma findLabel_answer_drop_spaces s k :
  k ≤ spaces s → findLabel answerLabel (trimStart s) = None →
  findLabel answerLabel (drop k s) = None.
Proof.
  intros Hk H. rewrite findLabel_answer_spaces, (trimStart_drop _ _ Hk), H. done.
Qed.

(** ** The matcher *)

Lemma run_star_nil cls g r pos m : run (Star cls g :: r) [] pos m = run r [] pos m.
Proof. simpl. destruct g; by destruct (run r [] pos m). Qed.

Lemma run_star_cons cls g r x s pos m :
  run (Star cls g :: r) (x :: s) pos m =
    let rest := run r (x :: s) pos m in
    let more := if cls x then run (Star cls g :: r) s (S pos) m else None in
    if g then match more with Some res => Some res | None => rest end
    else match rest with Some res => Some res | None => more end.
Proof. reflexivity. Qed.

Lemma run_open g r s pos m : run (Open g :: r) s pos m = run r s pos ((Start g, pos) :: m).
Proof. reflexivity. Qed.

Lemma run_close g r s pos m : run (Close g :: r) s pos m = run r s pos ((End g, pos) :: m).
Proof. reflexivity. Qed.

Lemma run_chars lbl r s pos m :
  run (map Char lbl ++ r) s pos m =
    if ciPrefix lbl s then run r (drop (length lbl) s) (pos + length lbl) m else None.
Proof.
  revert s pos. induction lbl as [|c lbl IH]; intros s pos.
  - simpl. by rewrite Nat.add_0_r.
  - destruct s as [|x s]; [done|]. simpl.
    destruct (charMatches c x); [|done]. rewrite IH.
    by replace (S pos + length lbl) with (pos + S (length lbl)) by lia.
Qed.

Lemma anyChar_true x : anyChar x = true.
Proof. unfold anyChar. by destruct (isSpace x). Qed.

(** A greedy [\s*]: when the rest of the pattern fails after the whole run
    of white space only if it fails after every shorter run, the star takes
    the whole run. *)
Lemma run_star_spaces r s pos m :
  (run r (trimStart s) (pos + spaces s) m = None →
   ∀ k, k ≤ spaces s → run r (drop k s) (pos + k) m = None) →
  run (Star isSpace true :: r) s pos m = run r (trimStart s) (pos + spaces s) m.
Proof.
  revert pos. induction s as [|x s IH]; intros pos H.
  - rewrite run_star_nil. simpl. by rewrite Nat.add_0_r.
  - rewrite run_star_cons. simpl in *. destruct (isSpace x) eqn:E.
    + replace (pos + S (spaces s)) with (S pos + spaces s) in * by lia.
      rewrite IH.
      * destruct (run r (trimStart s) (S pos + spaces s) m) eqn:R; [done|].
        specialize (H eq_refl 0). simpl in H. rewrite Nat.add_0_r in H.
        apply H. lia.
      * intros R k Hk. specialize (H R (S k)). simpl in H.
        replace (S pos + k) with (pos + S k) by lia. apply H. lia.
    + by rewrite Nat.add_0_r.
Qed.

Lemma run_star_any_close g s pos m :
  run [Star anyChar true; Close g] s pos m
  = Some (pos + length s, (End g, pos + length s) :: m).
Proof.
  revert pos. induction s as [|x s IH]; intros pos.
  - rewrite run_star_nil. simpl. by rewrite Nat.add_0_r.
  - rewrite run_star_cons. cbv zeta. rewrite anyChar_true, IH. simpl.
    by replace (pos + S (length s)) with (S (pos + length s)) by lia.
Qed.

Lemma run_afterAnswer s pos m :
  run afterAnswer s pos m
  = Some (pos + length s,
          (End 2, pos + length s) :: (Start 2, pos + spaces s) :: m).
Proof.
  unfold afterAnswer. rewrite run_star_spaces.
  - rewrite run_open, run_star_any_close.
    by rewrite <- Nat.add_assoc, spaces_length.
  - by rewrite run_open, run_star_any_close.
Qed.

Lemma run_answerPart s pos m :
  run answerPart s pos m =
    if ciPrefix answerLabel (trimStart s)
    then Some (pos + length s,
               (End 2, pos + length s)
               :: (Start 2, pos + spaces s + 7 + spaces (drop 7 (trimStart s)))
               :: m)
    else None.
Proof.
  unfold answerPart, chars. rewrite run_star_spaces.
  - rewrite run_chars. fold answerLabel.
    destruct (ciPrefix answerLabel (trimStart s)) eqn:E; [|done].
    rewrite run_afterAnswer. apply ciPrefix_length in E.
    change (length (js "Answer:")) with 7 in *. change (length answerLabel) with 7 in *.
    rewrite length_drop. pose proof (spaces_length s).
    by replace (pos + spaces s + 7 + (length (trimStart s) - 7))
      with (pos + length s) by lia.
  - intros R k Hk. apply Nat.lt_eq_cases in Hk as [Hk| ->].
    + destruct (drop_lt_spaces s k Hk) as (x & t & -> & Hx).
      rewrite run_chars. fold answerLabel. by rewrite ciPrefix_answer_space.
    + by rewrite <- trimStart_spaces.
Qed.

Lemma trimStart_app_spaces u v : trimStart u = [] → trimStart (u ++ v) = trimStart v.
Proof.
  induction u as [|x u IH]; simpl; [done|]. by destruct (isSpace x).
Qed.

Lemma trimEnd_nil_inv u : trimEnd u = [] → trimStart u = [].
Proof.
  induction u as [|x u IH]; [done|]. rewrite trimEnd_cons. simpl.
  destruct (trimEnd u) as [|c t]; [|done].
  destruct (isSpace x); [|done]. intros _. by apply IH.
Qed.

Lemma trimStart_take_spaces s : trimStart (take (spaces s) s) = [].
Proof.
  induction s as [|x s IH]; simpl; [done|].
  destruct (isSpace x) eqn:E; simpl; [|done]. by rewrite E.
Qed.

Lemma trimStart_answer s : ciPrefix answerLabel s = true → trimStart s = s.
Proof.
  destruct s as [|x s]; [done|]. intros H. simpl.
  by rewrite (ciPrefix_answer_cons _ _ H).
Qed.

Lemma findLabel_prefix lbl s : ciPrefix lbl s = true → findLabel lbl s = Some 0.
Proof. intros H. by rewrite findLabel_unfold, H. Qed.

(** The lazy group and what follows it: the match ends the group at the end
    of the text before the first answer label, white space excluded. *)
Lemma run_lazy s pos m :
  run (Star anyChar false :: Close 1 :: answerPart) s pos m
  = (λ j, strictMarks s pos j m) <$> findLabel answerLabel s.
Proof.
  revert pos. induction s as [|x s IH]; intros pos.
  - rewrite run_star_nil, run_close, run_answerPart. done.
  - rewrite run_star_cons. cbv zeta.
    rewrite anyChar_true, run_close, run_answerPart.
    destruct (ciPrefix answerLabel (trimStart (x :: s))) eqn:E.
    + clear IH. set (s0 := x :: s) in *. clearbody s0.
      rewrite findLabel_answer_spaces, (findLabel_prefix _ _ E). simpl fmap.
      unfold strictMarks. rewrite Nat.add_0_r.
      rewrite (trimEnd_spaces _ (trimStart_take_spaces _)).
      rewrite trimStart_spaces, drop_drop. simpl length.
      by rewrite Nat.add_0_r.
    + rewrite IH, (findLabel_unfold _ (x :: s)).
      assert (Hx : ciPrefix answerLabel (x :: s) = false).
      { destruct (ciPrefix answerLabel (x :: s)) eqn:Hx; [|done].
        by rewrite (trimStart_answer _ Hx), Hx in E. }
      rewrite Hx. destruct (findLabel answerLabel s) as [j|] eqn:Hj; [|done].
      simpl fmap. unfold strictMarks. simpl length. simpl drop. simpl take.
      replace (S pos + length s) with (pos + S (length s)) by lia.
      replace (S pos + j + 7) with (pos + S j + 7) by lia.
      do 4 f_equal. f_equal. f_equal. rewrite trimEnd_cons.
      destruct (trimEnd (take j s)) as [|c t] eqn:Et; [|simpl; lia].
      destruct (isSpace x) eqn:Ex; [|simpl; lia].
      exfalso. apply trimEnd_nil_inv in Et.
      destruct (findLabel_Some _ _ _ Hj) as [Hp _].
      assert (Ht : trimStart s = drop j s).
      { rewrite <- (take_drop j s) at 1.
        rewrite (trimStart_app_spaces _ _ Et). by apply trimStart_answer. }
      change (trimStart (x :: s)) with (if isSpace x then trimStart s else x :: s) in E.
      rewrite Ex, Ht, Hp in E. done.
Qed.

Lemma run_questionPart s pos m :
  run (questionPart ++ answerPart) s pos m
  = (λ j, strictMarks (trimStart s) (pos + spaces s) j
            ((Start 1, pos + spaces s) :: m))
    <$> findLabel answerLabel (trimStart s).
Proof.
  change (questionPart ++ answerPart)
    with (Star isSpace true :: Open 1 :: Star anyChar false :: Close 1 :: answerPart).
  rewrite run_star_spaces.
  - by rewrite run_open, run_lazy.
  - intros R k Hk. rewrite run_open, run_lazy in *.
    rewrite findLabel_answer_drop_spaces; [done|done|].
    by destruct (findLabel answerLabel (trimStart s)).
Qed.

Lemma run_questionAnswerRe s pos :
  run questionAnswerRe s pos [] =
    if ciPrefix questionLabel s then
      (λ j, strictMarks (trimStart (drop 9 s)) (pos + 9 + spaces (drop 9 s)) j
              [(Start 1, pos + 9 + spaces (drop 9 s))])
      <$> findLabel answerLabel (trimStart (drop 9 s))
    else None.
Proof.
  unfold questionAnswerRe, chars. rewrite run_chars. fold questionLabel.
  destruct (ciPrefix questionLabel s); [|done].
  change (length (js "Question:")) with 9. by rewrite run_questionPart.
Qed.

Lemma execFrom_unfold r s pos :
  execFrom r s pos =
    match run r s pos [] with
    | Some (e, m) => Some (pos, e, m)
    | None =>
        match s with
        | [] => None
        | _ :: s' => execFrom r s' (S pos)
        end
    end.
Proof. by destruct s. Qed.

Lemma strictMatch_no_answer s pos k :
  findLabel answerLabel (trimStart (drop 9 s)) = None →
  strictMatch (drop k s) pos = None.
Proof.
  intros H. unfold strictMatch.
  destruct (findLabel questionLabel (drop k s)) as [i|]; [|done]. simpl.
  assert (H' : findLabel answerLabel (drop 9 s) = None)
    by (by rewrite findLabel_answer_spaces, H).
  rewrite trimStart_spaces, !drop_drop.
  replace (k + (i + 9) + spaces (drop (k + (i + 9)) s))
    with (9 + (k + i + spaces (drop (k + (i + 9)) s))) by lia.
  rewrite <- (drop_drop s _ 9).
  by rewrite (findLabel_None_drop _ _ _ H').
Qed.

Lemma strictMatch_prefix s pos :
  ciPrefix questionLabel s = true →
  strictMatch s pos =
    match findLabel answerLabel (trimStart (drop 9 s)) with
    | Some j =>
        let '(e, m) :=
          strictMarks (trimStart (drop 9 s)) (pos + 9 + spaces (drop 9 s)) j
            [(Start 1, pos + 9 + spaces (drop 9 s))] in
        Some (pos, e, m)
    | None => None
    end.
Proof.
  intros E. unfold strictMatch. rewrite (findLabel_prefix _ _ E).
  simpl mbind. rewrite !Nat.add_0_r.
  by destruct (findLabel answerLabel (trimStart (drop 9 s))).
Qed.

Lemma strictMatch_cons x s pos :
  ciPrefix questionLabel (x :: s) = false →
  strictMatch (x :: s) pos = strictMatch s (S pos).
Proof.
  intros E. unfold strictMatch. rewrite (findLabel_unfold _ (x :: s)), E.
  destruct (findLabel questionLabel s) as [i|]; [|done].
  simpl. replace (pos + S i) with (S (pos + i)) by lia. done.
Qed.

Lemma execFrom_strict s pos : execFrom questionAnswerRe s pos = strictMatch s pos.
Proof.
  revert pos. induction s as [|x s IH]; intros pos;
    rewrite execFrom_unfold, run_questionAnswerRe.
  - done.
  - destruct (ciPrefix questionLabel (x :: s)) eqn:E.
    + rewrite (strictMatch_prefix _ _ E).
      destruct (findLabel answerLabel (trimStart (drop 9 (x :: s)))) as [j|] eqn:Hj.
      * done.
      * simpl fmap. rewrite IH.
        apply (strictMatch_no_answer (x :: s) (S pos) 1 Hj).
    + by rewrite IH, strictMatch_cons.
Qed.

Lemma trim_app_spaces u v : trimStart u = [] → trim (u ++ v) = trim v.
Proof. intros. unfold trim. by rewrite trimStart_app_spaces. Qed.

(** The two groups of a match of [questionAnswerRe], trimmed, are the two
    texts of the strict shape. *)
Lemma strictMatch_groups text :
  match strictMatch text 0 with
  | Some (_, _, m) =>
      specStrict text
      = (q ← trim <$> group text m 1; a ← trim <$> group text m 2; Some (q, a))
      ∧ is_Some (group text m 1) ∧ is_Some (group text m 2)
  | None => specStrict text = None
  end.
Proof.
  unfold strictMatch, specStrict.
  destruct (findLabel questionLabel text) as [i|]; [|done].
  change (length questionLabel) with 9. change (length answerLabel) with 7.
  simpl mbind. set (rest := drop (i + 9) text).
  rewrite (findLabel_answer_spaces rest).
  destruct (findLabel answerLabel (trimStart rest)) as [j|] eqn:Hj; [|done].
  simpl. unfold group, substring. simpl.
  split; [|by eauto].
  set (b := i + 9 + spaces rest).
  assert (Hb : drop b text = trimStart rest).
  { unfold b, rest. by rewrite trimStart_spaces, drop_drop. }
  f_equal. f_equal.
  - replace (b + length (trimEnd (take j (trimStart rest))) - b)
      with (length (trimEnd (take j (trimStart rest)))) by lia.
    rewrite Hb.
    set (u := take j (trimStart rest)).
    assert (Hu : take (length (trimEnd u)) (trimStart rest) = trimEnd u).
    { rewrite <- (trimEnd_prefix u) at 2. unfold u at 3. rewrite take_take.
      pose proof (trimEnd_length u) as Hle. unfold u at 2 in Hle.
      rewrite length_take in Hle. f_equal. lia. }
    rewrite Hu, trim_trimEnd.
    rewrite <- (take_take_drop rest (spaces rest) j), <- trimStart_spaces.
    by rewrite trim_app_spaces by apply trimStart_take_spaces.
  - set (s4 := drop (j + 7) (trimStart rest)).
    replace (b + j + 7 + spaces s4) with (b + (j + 7 + spaces s4)) by lia.
    rewrite <- (drop_drop text (j + 7 + spaces s4) b), Hb.
    rewrite <- (drop_drop (trimStart rest) (spaces s4) (j + 7)).
    fold s4. rewrite <- trimStart_spaces.
    rewrite take_ge.
    + rewrite trim_trimStart. unfold s4.
      rewrite trimStart_spaces, drop_drop. do 2 f_equal. lia.
    + pose proof (spaces_length s4). unfold s4 in *.
      rewrite length_drop in *. lia.
Qed.

(** ** The loose shape *)

Lemma run_label lbl s pos m :
  run (map Char lbl) s pos m =
    if ciPrefix lbl s then Some (pos + length lbl, m) else None.
Proof.
  replace (map Char lbl) with (map Char lbl ++ []) by apply app_nil_r.
  by rewrite run_chars.
Qed.

Lemma splitLoop_skip r x s k piece :
  splitLoop r (x :: s) (S k) piece = splitLoop r s k piece.
Proof. reflexivity. Qed.

Lemma splitLoop_scan r x s piece :
  splitLoop r (x :: s) 0 piece =
    match run r (x :: s) 0 [] with
    | None => splitLoop r s 0 (piece ++ [x])
    | Some (0, _) =>
        match piece with
        | [] => splitLoop r s 0 [x]
        | _ => piece :: splitLoop r s 0 [x]
        end
    | Some (S e, _) => piece :: splitLoop r s e []
    end.
Proof. reflexivity. Qed.

Lemma splitLoop_drop r s k piece :
  k ≤ length s → splitLoop r s k piece = splitLoop r (drop k s) 0 piece.
Proof.
  revert k. induction s as [|x s IH]; intros k Hk.
  - by replace k with 0 by (simpl in Hk; lia).
  - destruct k as [|k]; [done|]. rewrite splitLoop_skip. apply IH. simpl in Hk. lia.
Qed.

(** The pieces of a split at the answer label: the text before the first
    label, then the pieces of the text after it. *)
Lemma splitLoop_answer s piece :
  splitLoop answerRe s 0 piece =
    match findLabel answerLabel s with
    | Some j => (piece ++ take j s) :: splitLoop answerRe (drop (j + 7) s) 0 []
    | None => [piece ++ s]
    end.
Proof.
  revert piece. induction s as [|x s IH]; intros piece.
  - simpl. by rewrite app_nil_r.
  - rewrite splitLoop_scan. unfold answerRe at 1, chars. rewrite run_label.
    fold answerLabel. rewrite (findLabel_unfold _ (x :: s)).
    destruct (ciPrefix answerLabel (x :: s)) eqn:E.
    + apply ciPrefix_length in E. change (length answerLabel) with 7 in *.
      simpl in E. simpl. rewrite app_nil_r. f_equal.
      apply splitLoop_drop. lia.
    + rewrite IH. destruct (findLabel answerLabel s) as [j|]; simpl.
      * by rewrite <- app_assoc.
      * by rewrite <- app_assoc.
Qed.

Lemma split_answer text :
  split answerRe text =
    match findLabel answerLabel text with
    | Some j => take j text :: split answerRe (drop (j + 7) text)
    | None => [text]
    end.
Proof.
  assert (Hs : ∀ t, split answerRe t = splitLoop answerRe t 0 []) by (by intros []).
  rewrite !Hs, splitLoop_answer. destruct (findLabel answerLabel text); [|done].
  by rewrite Hs.
Qed.

Lemma split_answer_length text : 1 ≤ length (split answerRe text).
Proof. rewrite split_answer. destruct (findLabel answerLabel text); simpl; lia. Qed.

Lemma splitLoop_nonempty r s k piece : splitLoop r s k piece ≠ [].
Proof.
  revert k piece. induction s as [|x s IH]; intros k piece; [done|].
  destruct k as [|k]; [|apply IH]. rewrite splitLoop_scan.
  destruct (run r (x :: s) 0 []) as [[[|e] m]|]; [|done|apply IH].
  destruct piece; [apply IH|done].
Qed.

Lemma join_cons sep p ps : ps ≠ [] → join sep (p :: ps) = p ++ sep ++ join sep ps.
Proof. by destruct ps. Qed.

(** Splitting at the answer label and joining with [Answer:] rewrites the
    labels and keeps the rest of the text. *)
Lemma join_splitLoop_answer s k piece :
  k ≤ length s →
  join (js "Answer:") (splitLoop answerRe s k piece) = piece ++ relabel k s.
Proof.
  revert k piece. induction s as [|x s IH]; intros k piece Hk.
  - replace k with 0 by (simpl in Hk; lia). simpl. by rewrite app_nil_r.
  - destruct k as [|k].
    + rewrite splitLoop_scan. unfold answerRe at 1, chars. rewrite run_label.
      fold answerLabel.
      change (relabel 0 (x :: s))
        with (if ciPrefix answerLabel (x :: s) then js "Answer:" ++ relabel 6 s
              else x :: relabel 0 s).
      destruct (ciPrefix answerLabel (x :: s)) eqn:E.
      * apply ciPrefix_length in E. change (length answerLabel) with 7 in *.
        simpl in E. simpl Nat.add. cbv beta iota.
        rewrite join_cons by apply splitLoop_nonempty.
        rewrite IH by lia. done.
      * rewrite IH by lia. by rewrite <- app_assoc.
    + rewrite splitLoop_skip. simpl relabel. apply IH. simpl in Hk. lia.
Qed.

Lemma join_split_answer text : join (js "Answer:") (split answerRe text) = rejoin text.
Proof.
  assert (Hs : split answerRe text = splitLoop answerRe text 0 []) by (by destruct text).
  rewrite Hs, join_splitLoop_answer by lia. done.
Qed.

Lemma execFrom_label lbl s pos :
  execFrom (map Char lbl) s pos
  = (λ i, (pos + i, pos + i + length lbl, [])) <$> findLabel lbl s.
Proof.
  revert pos. induction s as [|x s IH]; intros pos;
    rewrite execFrom_unfold, run_label, findLabel_unfold.
  - destruct (ciPrefix lbl []); [|done]. simpl. by rewrite Nat.add_0_r.
  - destruct (ciPrefix lbl (x :: s)).
    + simpl. by rewrite Nat.add_0_r.
    + rewrite IH. destruct (findLabel lbl s) as [i|]; [|done]. simpl.
      by replace (pos + S i) with (S (pos + i)) by lia.
Qed.

Lemma replace_questionRe text :
  replace questionRe [] text = stripLabel questionLabel text.
Proof.
  unfold replace, exec, questionRe, chars, stripLabel. rewrite execFrom_label.
  fold questionLabel. by destruct (findLabel questionLabel text).
Qed.


(** ** The parse *)

Lemma parseQA_specParse text : parseQA text = specParse text.
Proof.
  unfold parseQA, exec, specParse. rewrite execFrom_strict.
  pose proof (strictMatch_groups text) as H.
  destruct (strictMatch text 0) as [[[b e] m]|].
  - destruct H as (-> & [g1 ->] & [g2 ->]). done.
  - rewrite H, split_answer. unfold specLoose.
    destruct (findLabel answerLabel text) as [j|]; [|done].
    pose proof (split_answer_length (drop (j + 7) text)).
    simpl length. destruct (Nat.leb_spec 2 (S (length (split answerRe (drop (j + 7) text)))));
      [|lia].
    simpl. by rewrite replace_questionRe, join_split_answer.
Qed.

(** The parse on sample responses: the requested format; labels in other
    letter case and a recurring answer label; no question label; a question
    label followed at once by the answer label, where the strict shape is
    found with an empty question and the loose shape is not tried. *)
Example parseQA_generated :
  parseQA generated = (Some (js "What is the capital of France?"), Some (js "Paris")).
Proof. reflexivity. Qed.

Example parseQA_letter_case :
  parseQA (js "QUESTION: 2+2? answer: 4 ANSWER: four")
  = (Some (js "2+2?"), Some (js "4 ANSWER: four")).
Proof. reflexivity. Qed.

Example parseQA_loose :
  parseQA (js "2+2? answer: 4 ANSWER: four")
  = (Some (js "2+2?"), Some (js "4 Answer: four")).
Proof. reflexivity. Qed.

Example parseQA_empty_question :
  parseQA (js "2+2? Answer: Question: Answer: 4") = (Some [], Some (js "4")).
Proof. reflexivity. Qed.

Lemma armed_state :
  armed = mkState [mkRecord (js "What is the capital of France?") (js "Paris")] ∅ ∅
            (Some (js "What is the capital of France?")) (Some (js "Paris")).
Proof. reflexivity. Qed.

(** * The claims *)

(** C8: the parse of the source is the parse the specification describes:
    first the strict shape (the text between the first question label and
    the first answer label after it, and the text after that answer label,
    labels matched without regard to case), else the split at the answer
    label (the text before the first answer label without a question label,
    and the rejoined text after it), both results trimmed; and when neither
    shape yields a non-empty question and a non-empty answer, GET /question
    answers with the parse failure and leaves the state as it was. *)
Theorem parse_two_strategies text :
  parseQA text = specParse text
  ∧ ∀ st content rnd,
      text = trim (default [] content) →
      yields (specStrict text) = false →
      yields (specLoose text) = false →
      requestNewQuestion st (Responded content) rnd = (st, ParseFailure).
Proof.
  split; [apply parseQA_specParse|].
  intros st content rnd -> Hs Hl. unfold requestNewQuestion.
  rewrite parseQA_specParse. unfold specParse.
  destruct (specStrict _) as [[q a]|].
  - destruct q as [|c q]; [done|]. by destruct a.
  - destruct (specLoose _) as [[q a]|]; [|done].
    destruct q as [|c q]; [done|]. by destruct a.
Qed.

Lemma parse_two_strategies_witness :
  unlabelled = trim (default [] (Some unlabelled))
  ∧ yields (specStrict unlabelled) = false
  ∧ yields (specLoose unlabelled) = false
  ∧ requestNewQuestion armed (Responded (Some unlabelled)) (mkRandom 0 1)
    = (armed, ParseFailure).
Proof.
  split; [reflexivity|]. split; [reflexivity|]. split; [reflexivity|].
  apply (proj2 (parse_two_strategies unlabelled)); reflexivity.
Defined.

(** C1, as the code has it: when the request to the generation service
    fails, GET /question falls back to the stored questions: with at least
    one record it succeeds and shows the question of a stored record, with
    none it answers that no question is available; the state is unchanged
    in both cases.  When the response cannot be parsed there is no fallback:
    the handler answers with the parse failure and leaves the state
    unchanged. *)
Theorem fallback_on_source_failure st rnd :
  num rnd < den rnd →
  (triviaQuestions st ≠ [] →
   ∃ r, r ∈ triviaQuestions st
        ∧ requestNewQuestion st Rejected rnd = (st, ShowQuestion (question r)))
  ∧ (triviaQuestions st = [] →
     requestNewQuestion st Rejected rnd = (st, Unavailable))
  ∧ (∀ content, parseFails content = true →
     requestNewQuestion st (Responded content) rnd = (st, ParseFailure)).
Proof.
  intros Hr. split; [|split].
  - intros Hne. destruct (fallback_stored st rnd Hr Hne) as (r & Hl & Hf).
    exists r. split; [|done]. by eapply list_elem_of_lookup_2.
  - apply fallback_empty.
  - intros content. unfold parseFails, requestNewQuestion.
    destruct (parseQA _) as [q a]. by intros ->.
Qed.

Lemma fallback_on_source_failure_witness :
  0 < 1
  ∧ (∃ r, r ∈ triviaQuestions armed
          ∧ requestNewQuestion armed Rejected (mkRandom 0 1)
            = (armed, ShowQuestion (question r)))
  ∧ requestNewQuestion initial Rejected (mkRandom 0 1) = (initial, Unavailable)
  ∧ requestNewQuestion armed (Responded (Some unlabelled)) (mkRandom 0 1)
    = (armed, ParseFailure).
Proof.
  assert (H : num (mkRandom 0 1) < den (mkRandom 0 1)) by (simpl; lia).
  split; [lia|].
  destruct (fallback_on_source_failure armed (mkRandom 0 1) H) as (H1 & _ & H3).
  destruct (fallback_on_source_failure initial (mkRandom 0 1) H) as (_ & H2 & _).
  split; [by apply H1|]. split; [by apply H2|]. by apply H3.
Defined.

(** C1 as stated fails: with a stored record and a response that cannot be
    parsed, GET /question does not show a stored question; it answers with
    the parse failure. *)
Lemma no_fallback_on_parse_failure :
  triviaQuestions armed ≠ []
  ∧ parseFails (Some unlabelled) = true
  ∧ requestNewQuestion armed (Responded (Some unlabelled)) (mkRandom 0 1)
    = (armed, ParseFailure)
  ∧ ¬ ∃ r, r ∈ triviaQuestions armed
           ∧ snd (requestNewQuestion armed (Responded (Some unlabelled)) (mkRandom 0 1))
             = ShowQuestion (question r).
Proof.
  split; [done|]. split; [reflexivity|]. split; [reflexivity|].
  intros (r & _ & H). discriminate H.
Qed.

(** C3: on the fallback path with a non-empty store, the question of the
    record at the drawn index is shown, and [currentQuestion] and
    [currentAnswer] (like the rest of the state) keep their values. *)
Theorem fallback_keeps_current st rnd :
  num rnd < den rnd →
  triviaQuestions st ≠ [] →
  ∃ r, triviaQuestions st !! randomIndex rnd (length (triviaQuestions st)) = Some r
       ∧ snd (requestNewQuestion st Rejected rnd) = ShowQuestion (question r)
       ∧ currentQuestion (fst (requestNewQuestion st Rejected rnd)) = currentQuestion st
       ∧ currentAnswer (fst (requestNewQuestion st Rejected rnd)) = currentAnswer st
       ∧ fst (requestNewQuestion st Rejected rnd) = st.
Proof.
  intros Hr Hne. destruct (fallback_stored st rnd Hr Hne) as (r & Hl & Hf).
  exists r. simpl. by rewrite Hf.
Qed.

Lemma fallback_keeps_current_witness :
  1 < 2 ∧ triviaQuestions armed ≠ []
  ∧ ∃ r, snd (requestNewQuestion armed Rejected (mkRandom 1 2)) = ShowQuestion (question r)
         ∧ currentAnswer (fst (requestNewQuestion armed Rejected (mkRandom 1 2)))
           = Some (js "Paris").
Proof.
  assert (H1 : num (mkRandom 1 2) < den (mkRandom 1 2)) by (simpl; lia).
  assert (H2 : triviaQuestions armed ≠ []) by done.
  split; [lia|]. split; [done|].
  destruct (fallback_keeps_current armed (mkRandom 1 2) H1 H2)
    as (r & _ & Hs & _ & Ha & _).
  exists r. split; [done|]. by rewrite Ha.
Defined.

(** C4, as the code has it: for a user id whose two counters are absent or
    numbers (on a server started fresh: every id that names no member of
    [Object.prototype]), a POST /answer with an answer that is a string,
    while a question is active, grades the answer against [currentAnswer];
    the question count of the user goes up by one (from 0 when absent), the
    score goes up by one exactly when the answer is correct and is unchanged
    otherwise, the active question stays, and the same request sent again
    counts again.  Without an answer the request throws and counts
    nothing. *)
Theorem submitAnswer_counts :
  (∀ reqs playerId,
      prototypeMember playerId = None →
      isCount (get (userScore (serve reqs)) playerId)
      ∧ isCount (get (questionNumber (serve reqs)) playerId))
  ∧ ∀ st userId submitted,
      noActiveQuestion st = false →
      let playerId := resolveUserId userId in
      isCount (get (userScore st) playerId) →
      isCount (get (questionNumber st) playerId) →
      let body := mkBody (Some submitted) userId in
      let correct := grade submitted (default [] (currentAnswer st)) in
      let st1 := fst (submitAnswer st body) in
      let st2 := fst (submitAnswer st1 body) in
      let score := count (get (userScore st) playerId) in
      let progress := count (get (questionNumber st) playerId) in
      counter (userScore st) playerId = VNum score
      ∧ counter (questionNumber st) playerId = VNum progress
      ∧ snd (submitAnswer st body)
        = Graded (default [] (currentQuestion st)) (default [] (currentAnswer st))
            submitted correct
      ∧ counter (questionNumber st1) playerId = VNum (progress + 1)
      ∧ counter (userScore st1) playerId = VNum (score + (if correct then 1 else 0))
      ∧ (counter (userScore st1) playerId = VNum (score + 1) ↔ correct = true)
      ∧ (counter (userScore st1) playerId = VNum score ↔ correct = false)
      ∧ currentQuestion st1 = currentQuestion st
      ∧ currentAnswer st1 = currentAnswer st
      ∧ snd (submitAnswer st1 body) = snd (submitAnswer st body)
      ∧ counter (questionNumber st2) playerId = VNum (progress + 2)
      ∧ counter (userScore st2) playerId = VNum (score + (if correct then 2 else 0))
      ∧ submitAnswer st (mkBody None userId) = (st, AnswerThrown).
Proof.
  split; [apply serve_isCount|].
  intros st userId submitted Hact playerId Hs Hq body correct st1 st2 score progress.
  destruct (submitAnswer_graded st userId submitted Hact Hs Hq)
    as (Hr1 & Hp1 & Hs1 & Hc1 & Hcq1 & Hca1 & Hact1).
  fold playerId body correct st1 score progress in Hr1, Hp1, Hs1, Hc1, Hcq1, Hca1, Hact1.
  assert (Hq1 : isCount (get (questionNumber st1) playerId))
    by (rewrite Hp1; right; by eexists).
  destruct (submitAnswer_graded st1 userId submitted Hact1 Hs1 Hq1)
    as (Hr2 & Hp2 & Hs2 & Hc2 & _).
  fold playerId body st2 in Hr2, Hp2, Hs2, Hc2.
  rewrite Hca1 in Hr2, Hc2. rewrite Hcq1 in Hr2. fold correct in Hr2, Hc2.
  rewrite Hp1 in Hp2. rewrite Hc1 in Hc2. cbn [count] in Hp2.
  assert (Hq2 : isCount (get (questionNumber st2) playerId))
    by (rewrite Hp2; right; by eexists).
  rewrite !counter_count by done. rewrite Hc1, Hc2, Hp1, Hp2, Hr1, Hr2.
  cbn [count].
  assert (Hmiss : submitAnswer st (mkBody None userId) = (st, AnswerThrown))
    by (unfold submitAnswer; by rewrite Hact).
  destruct correct; repeat split; try done; try lia;
    try (intros [= ?]; lia); try (f_equal; lia);
    try (intros _; f_equal; lia).
Qed.

Lemma submitAnswer_counts_witness :
  noActiveQuestion armed = false
  ∧ isCount (get (userScore armed) (resolveUserId None))
  ∧ isCount (get (questionNumber armed) (resolveUserId None))
  ∧ counter (questionNumber (fst (submitAnswer armed (mkBody (Some (js " PARIS ")) None))))
      (js "default") = VNum 1
  ∧ counter (userScore
               (fst (submitAnswer
                       (fst (submitAnswer armed (mkBody (Some (js " PARIS ")) None)))
                       (mkBody (Some (js " PARIS ")) None))))
      (js "default") = VNum 2.
Proof.
  assert (H0 : noActiveQuestion armed = false) by reflexivity.
  assert (H1 : isCount (get (userScore armed) (resolveUserId None)))
    by (by left).
  assert (H2 : isCount (get (questionNumber armed) (resolveUserId None)))
    by (by left).
  split; [done|]. split; [done|]. split; [done|].
  destruct (proj2 submitAnswer_counts armed None (js " PARIS ") H0 H1 H2)
    as (_ & _ & _ & Hp & _ & _ & _ & _ & _ & _ & _ & Hs & _).
  split; [exact Hp | exact Hs].
Defined.

(** C4 as stated fails in two ways.  While a question is active, a request
    without an answer is not graded and counts nowhere; and for the user id
    [constructor] the question count read before the request is the
    inherited function [Object], and after a graded, correct answer both
    counters are the text of that function followed by 1, not a count gone
    up by one. *)
Lemma submitAnswer_counts_fails :
  noActiveQuestion armed = false
  ∧ snd (submitAnswer armed (mkBody None None)) = AnswerThrown
  ∧ counter (questionNumber (fst (submitAnswer armed (mkBody None None)))) (js "default")
    = counter (questionNumber armed) (js "default")
  ∧ counter (questionNumber armed) (js "constructor") = VFunction (js "Object")
  ∧ snd (submitAnswer armed (mkBody (Some (js "Paris")) (Some (js "constructor"))))
    = Graded (js "What is the capital of France?") (js "Paris") (js "Paris") true
  ∧ counter (questionNumber
               (fst (submitAnswer armed
                       (mkBody (Some (js "Paris")) (Some (js "constructor"))))))
      (js "constructor")
    = VStr (js "function Object() { [native code] }1")
  ∧ counter (userScore
               (fst (submitAnswer armed
                       (mkBody (Some (js "Paris")) (Some (js "constructor"))))))
      (js "constructor")
    = VStr (js "function Object() { [native code] }1").
Proof. repeat split; reflexivity. Qed.

(** C5: while no question is active, POST /answer answers that there is no
    active question and changes nothing: the score and the question count
    of every user are what they were.  A fresh server is in that state. *)
Theorem submitAnswer_without_question st body :
  noActiveQuestion st = true →
  submitAnswer st body = (st, NoActiveQuestion)
  ∧ (∀ userId, getScore (fst (submitAnswer st body)) userId = getScore st userId)
  ∧ submitAnswer initial body = (initial, NoActiveQuestion).
Proof.
  intros H. unfold submitAnswer. rewrite H. done.
Qed.

Lemma submitAnswer_without_question_witness :
  noActiveQuestion initial = true
  ∧ submitAnswer initial (mkBody (Some (js "Paris")) (Some (js "ann")))
    = (initial, NoActiveQuestion).
Proof.
  split; [reflexivity|].
  apply (submitAnswer_without_question initial _ eq_refl).
Defined.

(** C6: the store never holds more than [maxTriviaQuestions] = 100 records:
    a sequence of additions keeps a store within the bound, so does every
    sequence of requests to a fresh server; and adding 101 records with
    pairwise different questions to the empty store leaves exactly 100:
    all but the first, in the order of insertion. *)
Theorem store_bounded_fifo :
  maxTriviaQuestions = 100
  ∧ (∀ store adds, length store ≤ maxTriviaQuestions →
       length (storeAll store adds) ≤ maxTriviaQuestions)
  ∧ (∀ adds, length (storeAll [] adds) ≤ maxTriviaQuestions)
  ∧ (∀ reqs, length (triviaQuestions (serve reqs)) ≤ maxTriviaQuestions)
  ∧ (∀ recs, length recs = maxTriviaQuestions + 1 →
       NoDup (question <$> recs) →
       storeAll [] recs = tail recs
       ∧ length (storeAll [] recs) = maxTriviaQuestions
       ∧ ∀ r, head recs = Some r → question r ∉ question <$> storeAll [] recs).
Proof.
  split; [done|]. split; [apply storeAll_length|].
  split; [intros; apply storeAll_length; simpl; lia|]. split.
  - intros reqs. unfold serve.
    apply (foldl_step_invariant
             (λ st, length (triviaQuestions st) ≤ maxTriviaQuestions)).
    + intros st [src rnd|body|u] H; simpl; [| |done].
      * by apply requestNewQuestion_store_length.
      * by rewrite submitAnswer_store.
    + simpl. lia.
  - intros recs Hlen Hnd.
    assert (Hall : storeAll [] recs = tail recs).
    { rewrite storeAll_distinct; [|done|simpl; lia]. simpl app.
      rewrite Hlen. replace (maxTriviaQuestions + 1 - maxTriviaQuestions) with 1 by lia.
      by destruct recs. }
    rewrite Hall. split; [done|]. split.
    + destruct recs; unfold maxTriviaQuestions in *; simpl in *; lia.
    + intros r Hr. destruct recs as [|r' recs]; [done|]. simpl in *.
      injection Hr as ->. by apply NoDup_cons in Hnd as [? _].
Qed.

Lemma store_bounded_fifo_witness :
  length distinctRecords = maxTriviaQuestions + 1
  ∧ NoDup (question <$> distinctRecords)
  ∧ storeAll [] distinctRecords = tail distinctRecords.
Proof.
  assert (Hlen : length distinctRecords = maxTriviaQuestions + 1) by reflexivity.
  assert (Hnd : NoDup (question <$> distinctRecords)).
  { apply (bool_decide_unpack (NoDup (question <$> distinctRecords))).
    vm_compute. exact I. }
  split; [done|]. split; [done|].
  destruct store_bounded_fifo as (_ & _ & _ & _ & H).
  by destruct (H distinctRecords Hlen Hnd) as [? _].
Defined.

(** C7: adding a question whose text is already stored changes nothing, also
    when the answer differs: the store, its size and the stored answer
    stay.  Adding the same text twice is adding it once. *)
Theorem storeTriviaQuestion_duplicate store q a :
  q ∈ question <$> store →
  storeTriviaQuestion store q a = store
  ∧ length (storeTriviaQuestion store q a) = length store
  ∧ (∀ r, r ∈ store ↔ r ∈ storeTriviaQuestion store q a)
  ∧ ∀ a', storeTriviaQuestion (storeTriviaQuestion store q a) q a'
          = storeTriviaQuestion store q a.
Proof.
  intros H. rewrite !storeTriviaQuestion_present by done.
  repeat split; try done. intros a'. by apply storeTriviaQuestion_present.
Qed.

Lemma storeTriviaQuestion_duplicate_witness :
  js "What is the capital of France?" ∈ question <$> triviaQuestions armed
  ∧ storeTriviaQuestion (triviaQuestions armed)
      (js "What is the capital of France?") (js "Lyon")
    = [mkRecord (js "What is the capital of France?") (js "Paris")].
Proof.
  assert (H : js "What is the capital of France?" ∈ question <$> triviaQuestions armed).
  { rewrite armed_state. simpl. by left. }
  split; [done|].
  by destruct (storeTriviaQuestion_duplicate _ _ (js "Lyon") H) as [-> _].
Defined.

(** Adding a text twice in a row, whatever the store: the second call is a
    no-op and the answer of the first call is the one kept. *)
Lemma storeTriviaQuestion_twice store q a a' :
  storeTriviaQuestion (storeTriviaQuestion store q a) q a'
  = storeTriviaQuestion store q a.
Proof. apply storeTriviaQuestion_present, storeTriviaQuestion_stored. Qed.

(** C9, as the code has it: a POST /answer without an answer is not
    validated.  While a question is active the grading expression throws a
    TypeError on the missing value (nothing is coerced) before any counter
    is updated; while no question is active the handler answers that there
    is no active question.  The state is unchanged in both cases. *)
Theorem submitAnswer_missing_answer st userId :
  submitAnswer st (mkBody None userId)
  = (st, if noActiveQuestion st then NoActiveQuestion else AnswerThrown).
Proof. unfold submitAnswer. simpl. by destruct (noActiveQuestion st). Qed.

(** C9 as stated fails: on a fresh server, where no question is active, a
    request without an answer is answered like any other request, with the
    no-active-question response; the missing answer raises no error. *)
Lemma missing_answer_not_rejected :
  noActiveQuestion initial = true
  ∧ submitAnswer initial (mkBody None None) = (initial, NoActiveQuestion)
  ∧ snd (submitAnswer initial (mkBody None None)) ≠ AnswerThrown.
Proof. split; [reflexivity|]. split; [reflexivity|]. discriminate. Qed.


(** * Further properties *)

(** ** The store *)

Lemma storeTriviaQuestion_NoDup store q a :
  NoDup (question <$> store) → NoDup (question <$> storeTriviaQuestion store q a).
Proof.
  intros Hnd. destruct (decide (q ∈ question <$> store)) as [Hin|Hout].
  - by rewrite storeTriviaQuestion_present.
  - rewrite storeTriviaQuestion_fresh by done.
    assert (Hall : NoDup (question <$> store ++ [mkRecord q a])).
    { rewrite fmap_app. apply NoDup_app. split; [done|]. split.
      - intros x Hx Hx'. apply list_elem_of_singleton in Hx'. by subst.
      - apply NoDup_singleton. }
    destruct (maxTriviaQuestions <? _); [|done].
    destruct (store ++ [mkRecord q a]) as [|r l]; [done|].
    simpl in *. by apply NoDup_cons in Hall as [_ ?].
Qed.

Lemma storeTriviaQuestion_Forall (P : QuestionRecord → Prop) store q a :
  Forall P store → P (mkRecord q a) → Forall P (storeTriviaQuestion store q a).
Proof.
  intros Hall Hr. unfold storeTriviaQuestion.
  destruct (existsb _ store); [done|]. cbv zeta.
  assert (H : Forall P (store ++ [mkRecord q a]))
    by (apply Forall_app; split; [done|by apply Forall_singleton]).
  destruct (maxTriviaQuestions <? _); [|done].
  destruct (store ++ [mkRecord q a]) as [|r l]; [done|].
  by apply Forall_cons in H as [_ ?].
Qed.

(** X1: the stored questions stay pairwise different: one addition keeps
    them so, and so does every sequence of requests to a fresh server. *)
Theorem store_questions_distinct :
  (∀ store q a, NoDup (question <$> store) →
     NoDup (question <$> storeTriviaQuestion store q a))
  ∧ (∀ adds, NoDup (question <$> storeAll [] adds))
  ∧ ∀ reqs, NoDup (question <$> triviaQuestions (serve reqs)).
Proof.
  split; [apply storeTriviaQuestion_NoDup|]. split.
  - intros adds. assert (H : ∀ store, NoDup (question <$> store) →
                                NoDup (question <$> storeAll store adds)).
    { induction adds as [|r adds IH]; intros store Hs; [done|].
      apply IH. by apply storeTriviaQuestion_NoDup. }
    apply H. constructor.
  - intros reqs. unfold serve.
    apply (foldl_step_invariant (λ st, NoDup (question <$> triviaQuestions st))).
    + intros st [src rnd|body|u] H; simpl; [| |done].
      * destruct src as [|content]; simpl; [by rewrite fallback_state|].
        destruct (parseQA _) as [q a].
        destruct (negb (truthy q) || negb (truthy a)); [done|].
        by apply storeTriviaQuestion_NoDup.
      * by rewrite submitAnswer_store.
    + constructor.
Qed.

Lemma store_questions_distinct_witness :
  NoDup (question <$> triviaQuestions armed)
  ∧ NoDup (question <$> storeTriviaQuestion (triviaQuestions armed) (js "2+2?") (js "4")).
Proof.
  assert (H : NoDup (question <$> triviaQuestions armed)).
  { rewrite armed_state. simpl. apply NoDup_singleton. }
  split; [done|]. by apply (proj1 store_questions_distinct).
Defined.

(** X2: adding a question that is not stored appends the record as the
    newest one; below the bound nothing else changes, at the bound the
    oldest record, and only it, is dropped. *)
Theorem store_fresh_question store q a :
  q ∉ question <$> store →
  length store ≤ maxTriviaQuestions →
  last (storeTriviaQuestion store q a) = Some (mkRecord q a)
  ∧ (length store < maxTriviaQuestions →
     storeTriviaQuestion store q a = store ++ [mkRecord q a])
  ∧ (length store = maxTriviaQuestions →
     storeTriviaQuestion store q a = tail store ++ [mkRecord q a]
     ∧ length (storeTriviaQuestion store q a) = maxTriviaQuestions).
Proof.
  intros Hout Hlen. rewrite storeTriviaQuestion_fresh by done.
  rewrite length_app. simpl length.
  destruct (Nat.ltb_spec maxTriviaQuestions (length store + 1)) as [Hlt|Hge].
  - assert (Hfull : length store = maxTriviaQuestions) by lia.
    destruct store as [|r store]; [unfold maxTriviaQuestions in *; simpl in *; lia|].
    simpl tail. split; [by rewrite last_snoc|]. split; [lia|].
    intros _. split; [done|]. rewrite length_app. simpl in *. lia.
  - split; [by rewrite last_snoc|]. split; [done|]. lia.
Qed.

Lemma store_fresh_question_witness :
  (js "2+2?" ∉ question <$> triviaQuestions armed)
  ∧ length (triviaQuestions armed) ≤ maxTriviaQuestions
  ∧ storeTriviaQuestion (triviaQuestions armed) (js "2+2?") (js "4")
    = triviaQuestions armed ++ [mkRecord (js "2+2?") (js "4")].
Proof.
  assert (H1 : js "2+2?" ∉ question <$> triviaQuestions armed).
  { rewrite armed_state. simpl. intros H. apply list_elem_of_singleton in H.
    discriminate H. }
  assert (H2 : length (triviaQuestions armed) ≤ maxTriviaQuestions).
  { rewrite armed_state. unfold maxTriviaQuestions. simpl. lia. }
  split; [done|]. split; [done|].
  destruct (store_fresh_question _ _ (js "4") H1 H2) as (_ & H & _).
  apply H. rewrite armed_state. unfold maxTriviaQuestions. simpl. lia.
Defined.

(** X3: questions that differ from each other and from the stored ones,
    added to a store within the bound, leave the newest
    [maxTriviaQuestions] records of the store followed by the additions, in
    the order of insertion. *)
Theorem store_keeps_newest store adds :
  NoDup (question <$> (store ++ adds)) →
  length store ≤ maxTriviaQuestions →
  storeAll store adds
  = drop (length (store ++ adds) - maxTriviaQuestions) (store ++ adds)
  ∧ length (storeAll store adds) = min (length (store ++ adds)) maxTriviaQuestions.
Proof.
  intros Hnd Hlen. rewrite storeAll_distinct by done.
  split; [done|]. rewrite length_drop. lia.
Qed.

Lemma store_keeps_newest_witness :
  NoDup (question <$> ([] ++ distinctRecords))
  ∧ @length QuestionRecord [] ≤ maxTriviaQuestions
  ∧ storeAll [] distinctRecords
    = drop (length distinctRecords - maxTriviaQuestions) distinctRecords.
Proof.
  assert (Hnd : NoDup (question <$> ([] ++ distinctRecords))).
  { apply (bool_decide_unpack (NoDup (question <$> ([] ++ distinctRecords)))).
    vm_compute. exact I. }
  assert (Hlen : @length QuestionRecord [] ≤ maxTriviaQuestions)
    by (simpl; lia).
  split; [done|]. split; [done|].
  apply (store_keeps_newest [] distinctRecords Hnd Hlen).
Defined.

(** ** Reachable states *)

Lemma trim_idemp s : trim (trim s) = trim s.
Proof. unfold trim at 2. by rewrite trim_trimEnd, trim_trimStart. Qed.

Lemma specParse_trimmed text q a :
  specParse text = (Some q, Some a) → trim q = q ∧ trim a = a.
Proof.
  unfold specParse, specStrict, specLoose.
  destruct (findLabel questionLabel text) as [i|]; simpl.
  - destruct (findLabel answerLabel (drop _ text)) as [j|]; simpl.
    + intros [= <- <-]. by rewrite !trim_idemp.
    + destruct (findLabel answerLabel text) as [j|]; simpl; [|done].
      intros [= <- <-]. by rewrite !trim_idemp.
  - destruct (findLabel answerLabel text) as [j|]; simpl; [|done].
    intros [= <- <-]. by rewrite !trim_idemp.
Qed.

Lemma truthy_Some v : truthy v = true → ∃ s, v = Some s ∧ s ≠ [].
Proof. destruct v as [[|c s]|]; try done. intros _. by eexists. Qed.

(** The state after GET /question when the parse gave a usable pair. *)
Lemma requestNewQuestion_success st content rnd q a :
  parseQA (trim (default [] content)) = (Some q, Some a) →
  q ≠ [] → a ≠ [] →
  requestNewQuestion st (Responded content) rnd
  = (mkState (storeTriviaQuestion (triviaQuestions st) q a)
       (userScore st) (questionNumber st) (Some q) (Some a),
     ShowQuestion q).
Proof.
  intros Hp Hq Ha. unfold requestNewQuestion. rewrite Hp.
  destruct q; [done|]. by destruct a.
Qed.

Lemma requestNewQuestion_cases st src rnd :
  fst (requestNewQuestion st src rnd) = st
  ∨ ∃ q a, clean q ∧ clean a
           ∧ fst (requestNewQuestion st src rnd)
             = mkState (storeTriviaQuestion (triviaQuestions st) q a)
                 (userScore st) (questionNumber st) (Some q) (Some a).
Proof.
  destruct src as [|content]; [left; apply fallback_state|].
  unfold requestNewQuestion.
  destruct (parseQA _) as [q a] eqn:Hp.
  destruct (truthy q) eqn:Hq; [|by left].
  destruct (truthy a) eqn:Ha; [|by left].
  apply truthy_Some in Hq as (q' & -> & Hq). apply truthy_Some in Ha as (a' & -> & Ha).
  rewrite parseQA_specParse in Hp. apply specParse_trimmed in Hp as [Hq' Ha'].
  right. exists q', a'. by repeat split.
Qed.

Lemma submitAnswer_current st body :
  currentQuestion (fst (submitAnswer st body)) = currentQuestion st
  ∧ currentAnswer (fst (submitAnswer st body)) = currentAnswer st.
Proof.
  unfold submitAnswer. destruct (noActiveQuestion st); [done|].
  by destruct (bodyAnswer body).
Qed.

Lemma step_consistent st req : consistent st → consistent (step st req).
Proof.
  intros (Hnd & Hall & Hcur). destruct req as [src rnd|body|u]; simpl; [| |done].
  - destruct (requestNewQuestion_cases st src rnd) as [->|(q & a & Hq & Ha & ->)];
      [done|].
    repeat split; simpl.
    + by apply storeTriviaQuestion_NoDup.
    + by apply storeTriviaQuestion_Forall.
    + apply Hq.
    + apply Hq.
    + apply Ha.
    + apply Ha.
    + apply storeTriviaQuestion_stored.
  - destruct (submitAnswer_current st body) as [Hq Ha].
    unfold consistent. by rewrite submitAnswer_store, Hq, Ha.
Qed.

Lemma serve_consistent reqs : consistent (serve reqs).
Proof.
  unfold serve. apply foldl_step_invariant; [apply step_consistent|].
  repeat split; simpl; constructor.
Qed.

Lemma consistent_active st :
  consistent st →
  (noActiveQuestion st = true
   ∧ currentQuestion st = None ∧ currentAnswer st = None ∧ triviaQuestions st = [])
  ∨ (noActiveQuestion st = false
     ∧ ∃ q a, currentQuestion st = Some q ∧ currentAnswer st = Some a
              ∧ clean q ∧ clean a ∧ q ∈ question <$> triviaQuestions st).
Proof.
  intros (_ & _ & H). unfold noActiveQuestion.
  destruct (currentQuestion st) as [q|], (currentAnswer st) as [a|]; try done.
  - right. destruct H as ([Hq ?] & [Ha ?] & Hin).
    split; [by destruct q, a|]. exists q, a. by repeat split.
  - by left.
Qed.

(** X4: after every sequence of requests the two variables of the active
    question are set together or not at all; a question is active exactly
    when the store is not empty; and the active question is the question of
    a stored record. *)
Theorem active_question_stored reqs :
  (currentQuestion (serve reqs) = None ↔ currentAnswer (serve reqs) = None)
  ∧ (noActiveQuestion (serve reqs) = true ↔ triviaQuestions (serve reqs) = [])
  ∧ ∀ q, currentQuestion (serve reqs) = Some q →
         q ∈ question <$> triviaQuestions (serve reqs).
Proof.
  destruct (consistent_active _ (serve_consistent reqs))
    as [(Hn & Hq & Ha & Hs)|(Hn & q & a & Hq & Ha & _ & _ & Hin)].
  - rewrite Hn, Hq, Ha, Hs. by repeat split.
  - rewrite Hn, Hq, Ha. repeat split; try done.
    + intros Hs. rewrite Hs in Hin. by apply not_elem_of_nil in Hin.
    + by intros ? [= <-].
Qed.

Lemma active_question_stored_witness :
  currentQuestion (serve [GetQuestion (Responded (Some generated)) (mkRandom 0 1)])
  = Some (js "What is the capital of France?")
  ∧ js "What is the capital of France?"
    ∈ question <$> triviaQuestions
                     (serve [GetQuestion (Responded (Some generated)) (mkRandom 0 1)]).
Proof.
  assert (H : currentQuestion
                (serve [GetQuestion (Responded (Some generated)) (mkRandom 0 1)])
              = Some (js "What is the capital of France?")) by reflexivity.
  split; [done|].
  destruct (active_question_stored
              [GetQuestion (Responded (Some generated)) (mkRandom 0 1)])
    as (_ & _ & Hs).
  by apply Hs.
Defined.

(** X5: after every sequence of requests, the armed question and answer and
    every stored question and answer are non-empty and have no white space
    at either end. *)
Theorem armed_and_stored_clean reqs :
  (∀ q, currentQuestion (serve reqs) = Some q → q ≠ [] ∧ trim q = q)
  ∧ (∀ a, currentAnswer (serve reqs) = Some a → a ≠ [] ∧ trim a = a)
  ∧ ∀ r, r ∈ triviaQuestions (serve reqs) →
         (question r ≠ [] ∧ trim (question r) = question r)
         ∧ (answer r ≠ [] ∧ trim (answer r) = answer r).
Proof.
  pose proof (serve_consistent reqs) as Hc.
  split; [|split].
  - destruct (consistent_active _ Hc) as [(_ & -> & _)|(_ & q & a & -> & _ & Hq & _)];
      [done|]. by intros ? [= <-].
  - destruct (consistent_active _ Hc)
      as [(_ & _ & -> & _)|(_ & q & a & _ & -> & _ & Ha & _)]; [done|].
    by intros ? [= <-].
  - destruct Hc as (_ & Hall & _). intros r Hr.
    rewrite Forall_forall in Hall. apply (Hall r Hr).
Qed.

Lemma armed_and_stored_clean_witness :
  currentAnswer (serve [GetQuestion (Responded (Some generated)) (mkRandom 0 1)])
  = Some (js "Paris")
  ∧ js "Paris" ≠ [] ∧ trim (js "Paris") = js "Paris".
Proof.
  assert (H : currentAnswer
                (serve [GetQuestion (Responded (Some generated)) (mkRandom 0 1)])
              = Some (js "Paris")) by reflexivity.
  split; [done|].
  destruct (armed_and_stored_clean
              [GetQuestion (Responded (Some generated)) (mkRandom 0 1)])
    as (_ & Ha & _).
  by apply Ha.
Defined.

Lemma step_active st req : noActiveQuestion st = false → noActiveQuestion (step st req) = false.
Proof.
  intros H. destruct req as [src rnd|body|u]; simpl; [| |done].
  - destruct (requestNewQuestion_cases st src rnd) as [->|(q & a & [Hq _] & [Ha _] & ->)];
      [done|].
    unfold noActiveQuestion. simpl. by destruct q, a.
  - destruct (submitAnswer_current st body) as [Hq Ha].
    unfold noActiveQuestion. by rewrite Hq, Ha.
Qed.

(** X6: no request clears the active question: once a question is active,
    one is active after every further sequence of requests. *)
Theorem active_question_stays st reqs :
  noActiveQuestion st = false → noActiveQuestion (foldl step st reqs) = false.
Proof.
  intros H. by apply (foldl_step_invariant (λ st, noActiveQuestion st = false));
    [apply step_active|].
Qed.

Lemma active_question_stays_witness :
  noActiveQuestion armed = false
  ∧ noActiveQuestion
      (foldl step armed
         [GetQuestion Rejected (mkRandom 0 1);
          GetQuestion (Responded (Some unlabelled)) (mkRandom 0 1);
          PostAnswer (mkBody None None)]) = false.
Proof.
  split; [reflexivity|]. by apply active_question_stays.
Defined.

(** ** Grading *)

Lemma lowerChar_idemp c : lowerChar (lowerChar c) = lowerChar c.
Proof. destruct c as [[] [] [] [] [] [] [] []]; reflexivity. Qed.

Lemma toLowerCase_idemp s : toLowerCase (toLowerCase s) = toLowerCase s.
Proof.
  unfold toLowerCase. rewrite map_map. apply map_ext. intros c. apply lowerChar_idemp.
Qed.

Lemma trimEnd_app_spaces u w : trimStart (rev w) = [] → trimEnd (u ++ w) = trimEnd u.
Proof.
  intros H. unfold trimEnd. by rewrite rev_app_distr, trimStart_app_spaces.
Qed.

Lemma trimStart_nil_rev w : trimStart w = [] → trimStart (rev w) = [].
Proof.
  induction w as [|c w IH]; [done|]. simpl.
  destruct (isSpace c) eqn:E; [|done]. intros H.
  rewrite trimStart_snoc, (IH H). by rewrite E.
Qed.

Lemma trim_nil_inv w : trim w = [] → trimStart w = [].
Proof.
  unfold trim. intros H. apply trimEnd_nil_inv in H. by rewrite trimStart_idemp in H.
Qed.

(** White space around a text does not change its [trim]. *)
Lemma trim_surrounded w1 s w2 : trim w1 = [] → trim w2 = [] → trim (w1 ++ s ++ w2) = trim s.
Proof.
  intros H1 H2. rewrite trim_app_spaces by by apply trim_nil_inv.
  unfold trim. rewrite <- !trimStart_trimEnd. f_equal.
  apply trimEnd_app_spaces, trimStart_nil_rev. by apply trim_nil_inv.
Qed.

(** X7: the comparison of line 158 is an equivalence on answers that does
    not see letter case or surrounding white space: it is reflexive,
    symmetric and transitive, and trimming, lowercasing or surrounding the
    submitted answer with white space does not change the verdict. *)
Theorem grade_equivalence :
  (∀ s, grade s s = true)
  ∧ (∀ s e, grade s e = grade e s)
  ∧ (∀ a b c, grade a b = true → grade b c = true → grade a c = true)
  ∧ (∀ s e, grade (trim s) e = grade s e)
  ∧ (∀ s e, grade (toLowerCase s) e = grade s e)
  ∧ ∀ w1 w2 s e, trim w1 = [] → trim w2 = [] → grade (w1 ++ s ++ w2) e = grade s e.
Proof.
  unfold grade. repeat split.
  - intros s. by apply bool_decide_eq_true.
  - intros s e. apply bool_decide_ext. naive_solver.
  - intros a b c. rewrite !bool_decide_eq_true. congruence.
  - intros s e. by rewrite <- trim_toLowerCase, trim_idemp.
  - intros s e. by rewrite toLowerCase_idemp.
  - intros w1 w2 s e H1 H2. rewrite !trim_toLowerCase.
    by rewrite trim_surrounded.
Qed.

Lemma grade_equivalence_witness :
  grade (js "PARIS") (js "Paris") = true
  ∧ grade (js "Paris") (js " paris ") = true
  ∧ grade (js "PARIS") (js " paris ") = true
  ∧ trim (js "  ") = [] ∧ trim (js "
") = []
  ∧ grade (js "  " ++ js "Paris" ++ js "
") (js "paris") = grade (js "Paris") (js "paris").
Proof.
  destruct grade_equivalence as (_ & _ & Ht & _ & _ & Hw).
  assert (H1 : grade (js "PARIS") (js "Paris") = true) by reflexivity.
  assert (H2 : grade (js "Paris") (js " paris ") = true) by reflexivity.
  assert (H3 : trim (js "  ") = []) by reflexivity.
  assert (H4 : trim (js "
") = []) by reflexivity.
  split; [done|]. split; [done|]. split; [exact (Ht _ _ _ H1 H2)|].
  split; [done|]. split; [done|]. exact (Hw _ _ _ _ H3 H4).
Defined.

(** X8: after every sequence of requests, an answer of white space only (or
    the empty answer) is never graded correct, and submitting it raises no
    score. *)
Theorem blank_answer_never_correct reqs userId submitted :
  trim submitted = [] →
  let result := submitAnswer (serve reqs) (mkBody (Some submitted) userId) in
  (∀ q a s, snd result ≠ Graded q a s true)
  ∧ userScore (fst result) = userScore (serve reqs).
Proof.
  intros Hb result. unfold result, submitAnswer.
  destruct (consistent_active _ (serve_consistent reqs))
    as [(-> & _)|(-> & q & a & _ & -> & _ & [Ha Ha'] & _)]; [done|].
  simpl.
  assert (Hg : grade submitted a = false).
  { unfold grade. apply bool_decide_eq_false.
    rewrite !trim_toLowerCase, Hb, Ha'. destruct a; done. }
  by rewrite Hg.
Qed.

Lemma blank_answer_never_correct_witness :
  trim (js "   ") = []
  ∧ userScore (fst (submitAnswer
                      (serve [GetQuestion (Responded (Some generated)) (mkRandom 0 1)])
                      (mkBody (Some (js "   ")) None)))
    = userScore (serve [GetQuestion (Responded (Some generated)) (mkRandom 0 1)]).
Proof.
  assert (H : trim (js "   ") = []) by reflexivity.
  split; [done|].
  apply (blank_answer_never_correct
           [GetQuestion (Responded (Some generated)) (mkRandom 0 1)] None _ H).
Defined.

(** ** The counters along a run *)

(** X9: POST /answer touches the two counters of the user it resolves and
    nothing else: the properties of every other user, the store and the
    active question stay; GET /question, whatever its outcome, changes no
    counter. *)
Theorem requests_frame st :
  (∀ body userId,
      userId ≠ resolveUserId (bodyUserId body) →
      userScore (fst (submitAnswer st body)) !! userId = userScore st !! userId
      ∧ questionNumber (fst (submitAnswer st body)) !! userId
        = questionNumber st !! userId)
  ∧ (∀ body,
      triviaQuestions (fst (submitAnswer st body)) = triviaQuestions st
      ∧ currentQuestion (fst (submitAnswer st body)) = currentQuestion st
      ∧ currentAnswer (fst (submitAnswer st body)) = currentAnswer st)
  ∧ ∀ src rnd,
      userScore (fst (requestNewQuestion st src rnd)) = userScore st
      ∧ questionNumber (fst (requestNewQuestion st src rnd)) = questionNumber st.
Proof.
  split; [|split].
  - intros body userId Hne. unfold submitAnswer.
    destruct (noActiveQuestion st); [done|].
    destruct (bodyAnswer body) as [submitted|]; [|done].
    cbn [fst userScore questionNumber].
    rewrite lookup_updateQuestionNumber_ne by done. split; [|done].
    destruct (grade _ _); [|done]. by rewrite lookup_updateUserScore_ne.
  - intros body. split; [apply submitAnswer_store|apply submitAnswer_current].
  - apply requestNewQuestion_counters.
Qed.

Lemma requests_frame_witness :
  js "bob" ≠ resolveUserId (bodyUserId (mkBody (Some (js "Paris")) (Some (js "ann"))))
  ∧ userScore (fst (submitAnswer armed (mkBody (Some (js "Paris")) (Some (js "ann")))))
      !! js "bob" = userScore armed !! js "bob".
Proof.
  assert (H : js "bob"
              ≠ resolveUserId (bodyUserId (mkBody (Some (js "Paris")) (Some (js "ann")))))
    by discriminate.
  split; [done|].
  destruct (requests_frame armed) as (Hf & _).
  by destruct (Hf _ _ H) as [-> _].
Defined.

Lemma tally_counts userId reqs st :
  isCount (get (userScore st) userId) →
  isCount (get (questionNumber st) userId) →
  (isCount (get (userScore (foldl step st reqs)) userId)
   ∧ isCount (get (questionNumber (foldl step st reqs)) userId))
  ∧ count (get (userScore (foldl step st reqs)) userId)
    = count (get (userScore st) userId) + fst (tally userId st reqs)
  ∧ count (get (questionNumber (foldl step st reqs)) userId)
    = count (get (questionNumber st) userId) + snd (tally userId st reqs).
Proof.
  revert st. induction reqs as [|req reqs IH]; intros st Hs Hq;
    [simpl; repeat split; try done; lia|].
  destruct (step_counts st req userId Hs Hq) as (Hs1 & Hq1 & H1 & H2).
  simpl foldl. destruct (IH (step st req) Hs1 Hq1) as (Hc & IH1 & IH2).
  split; [done|]. rewrite IH1, IH2, H1, H2. clear.
  simpl tally. destruct (tally userId (step st req) reqs) as [c g].
  destruct req as [src rnd|body|u]; simpl; [lia| |lia].
  destruct (snd (submitAnswer st body)) as [|q a s correct|]; simpl; [lia| |lia].
  destruct (decide _); [|simpl; lia]. destruct correct; simpl; lia.
Qed.

Lemma tally_le userId reqs st : fst (tally userId st reqs) ≤ snd (tally userId st reqs).
Proof.
  revert st. induction reqs as [|req reqs IH]; intros st; [done|].
  simpl tally. specialize (IH (step st req)).
  destruct (tally userId (step st req) reqs) as [c g].
  destruct req as [src rnd|body|u]; simpl in *; [done| |done].
  destruct (snd (submitAnswer st body)) as [|q a s correct|]; simpl; [done| |done].
  destruct (decide _); [|done]. destruct correct; simpl; lia.
Qed.

(** X10: for a user id that names no member of [Object.prototype], the two
    counters that GET /score reports are exactly the number of answers of
    that user that POST /answer reported as correct, and the number of
    answers of that user that it graded, over the whole sequence of
    requests; requests answered without grading (no active question,
    missing answer) count nowhere, and the score is at most the question
    count.  GET /score without a user id reports the tally of the id
    [default]. *)
Theorem score_counts_graded_answers reqs userId :
  prototypeMember userId = None →
  counter (userScore (serve reqs)) userId = VNum (fst (tally userId initial reqs))
  ∧ counter (questionNumber (serve reqs)) userId
    = VNum (snd (tally userId initial reqs))
  ∧ fst (tally userId initial reqs) ≤ snd (tally userId initial reqs)
  ∧ getScore (serve reqs) None
    = (VNum (fst (tally (js "default") initial reqs)),
       VNum (snd (tally (js "default") initial reqs))).
Proof.
  intros Hu.
  assert (H : ∀ u, prototypeMember u = None →
                counter (userScore (serve reqs)) u = VNum (fst (tally u initial reqs))
                ∧ counter (questionNumber (serve reqs)) u
                  = VNum (snd (tally u initial reqs))).
  { intros u Hp. unfold serve.
    assert (H0 : isCount (get (userScore initial) u)
                 ∧ isCount (get (questionNumber initial) u)).
    { simpl. rewrite (get_empty_plain _ Hp). split; by left. }
    destruct H0 as [Hs Hq].
    destruct (tally_counts u reqs initial Hs Hq) as ([Hs' Hq'] & H1 & H2).
    rewrite !counter_count by done. rewrite H1, H2. simpl.
    by rewrite (get_empty_plain _ Hp). }
  destruct (H userId Hu) as [H1 H2]. split; [done|]. split; [done|].
  split; [apply tally_le|].
  unfold getScore. cbv zeta. change (resolveUserId None) with (js "default").
  by destruct (H (js "default") eq_refl) as [-> ->].
Qed.

Lemma score_counts_graded_answers_witness :
  prototypeMember (js "ann") = None
  ∧ counter (userScore
               (serve [GetQuestion (Responded (Some generated)) (mkRandom 0 1);
                       PostAnswer (mkBody (Some (js "paris")) (Some (js "ann")));
                       PostAnswer (mkBody (Some (js "Lyon")) (Some (js "ann")))]))
      (js "ann") = VNum 1
  ∧ counter (questionNumber
               (serve [GetQuestion (Responded (Some generated)) (mkRandom 0 1);
                       PostAnswer (mkBody (Some (js "paris")) (Some (js "ann")));
                       PostAnswer (mkBody (Some (js "Lyon")) (Some (js "ann")))]))
      (js "ann") = VNum 2.
Proof.
  assert (H : prototypeMember (js "ann") = None) by reflexivity.
  split; [done|].
  destruct (score_counts_graded_answers
              [GetQuestion (Responded (Some generated)) (mkRandom 0 1);
               PostAnswer (mkBody (Some (js "paris")) (Some (js "ann")));
               PostAnswer (mkBody (Some (js "Lyon")) (Some (js "ann")))]
              (js "ann") H) as (H1 & H2 & _).
  split; [exact H1 | exact H2].
Defined.

(** ** The parse of well-formed and ill-formed responses *)

Lemma space_not_in_answerLabel x :
  isSpace x && negb (forallb (λ c, negb (charMatches c x)) answerLabel) = false.
Proof. destruct x as [[] [] [] [] [] [] [] []]; reflexivity. Qed.

Lemma ciPrefix_app_space lbl t x v :
  forallb (λ c, negb (charMatches c x)) lbl = true →
  ciPrefix lbl (t ++ x :: v) = true → ciPrefix lbl t = true.
Proof.
  revert t. induction lbl as [|c lbl IH]; intros t Hl H; [done|].
  simpl in Hl. apply andb_prop in Hl as [Hc Hl].
  destruct t as [|y t]; simpl in *.
  - by destruct (charMatches c x).
  - apply andb_prop in H as [-> H]. by apply IH.
Qed.

Lemma findLabel_app_space q x v :
  isSpace x = true → findLabel answerLabel q = None →
  findLabel answerLabel (q ++ x :: v) = (λ j, length q + S j) <$> findLabel answerLabel v.
Proof.
  intros Hx. induction q as [|y q IH]; intros Hq.
  - simpl app. rewrite findLabel_unfold, (ciPrefix_answer_space _ _ Hx).
    by destruct (findLabel answerLabel v).
  - rewrite findLabel_unfold in Hq.
    destruct (ciPrefix answerLabel (y :: q)) eqn:E; [done|].
    destruct (findLabel answerLabel q) eqn:Hq'; [done|].
    change ((y :: q) ++ x :: v) with (y :: (q ++ x :: v)).
    rewrite findLabel_unfold.
    destruct (ciPrefix answerLabel (y :: q ++ x :: v)) eqn:E'.
    + apply (ciPrefix_app_space answerLabel (y :: q)) in E'; [congruence|].
      pose proof (space_not_in_answerLabel x) as Hs. rewrite Hx in Hs.
      by destruct (forallb _ answerLabel).
    + rewrite IH by done. by destruct (findLabel answerLabel v).
Qed.

Lemma trimEnd_app_keep u v : trimEnd v ≠ [] → trimEnd (u ++ v) = u ++ trimEnd v.
Proof.
  intros Hv. induction u as [|x u IH]; [done|].
  simpl app. rewrite trimEnd_cons, IH.
  destruct (u ++ trimEnd v) eqn:E; [|done].
  by apply app_eq_nil in E as [_ ?].
Qed.

Lemma parseQA_format q a :
  findLabel answerLabel q = None →
  parseQA (format q a) = (Some (trim q), Some (trim a)).
Proof.
  intros Hq. rewrite parseQA_specParse. unfold specParse, specStrict.
  assert (Hi : findLabel questionLabel (format q a) = Some 0)
    by (by apply findLabel_prefix).
  assert (Hr : drop (0 + length questionLabel) (format q a)
               = " "%char :: q ++ "010"%char :: (js "Answer: " ++ a)) by reflexivity.
  assert (Hv : ciPrefix answerLabel (js "Answer: " ++ a) = true) by reflexivity.
  assert (Hd : drop 7 (js "Answer: " ++ a) = " "%char :: a) by reflexivity.
  set (v := js "Answer: " ++ a) in *. clearbody v.
  assert (Hj : findLabel answerLabel (" "%char :: q ++ "010"%char :: v)
               = Some (S (length q + 1))).
  { rewrite findLabel_unfold, ciPrefix_answer_space by done.
    rewrite findLabel_app_space by done.
    by rewrite (findLabel_prefix _ _ Hv). }
  rewrite Hi. unfold mbind at 1, option_bind at 1. cbv beta iota zeta.
  rewrite Hr, Hj. unfold mbind, option_bind. cbv beta iota zeta.
  change (length answerLabel) with 7.
  f_equal; f_equal.
  - cbn [take]. rewrite take_app_add. cbn [take].
    apply (trim_surrounded [" "%char] q ["010"%char]); reflexivity.
  - cbn [Nat.add drop].
    replace (length q + 1 + 7) with (length q + 8) by lia.
    rewrite drop_app_add. cbn [drop]. rewrite Hd.
    apply (trim_app_spaces [" "%char] a). reflexivity.
Qed.

(** X11: a response in the format the system message asks for, whose
    question holds no answer label, is parsed into its two parts trimmed;
    when both are non-empty GET /question stores and arms exactly them and
    shows the question, and the answer as written in the response is then
    graded correct. *)
Theorem format_round_trip st q a rnd :
  findLabel answerLabel q = None →
  trim q ≠ [] → trim a ≠ [] →
  parseQA (format q a) = (Some (trim q), Some (trim a))
  ∧ requestNewQuestion st (Responded (Some (format q a))) rnd
    = (mkState (storeTriviaQuestion (triviaQuestions st) (trim q) (trim a))
         (userScore st) (questionNumber st) (Some (trim q)) (Some (trim a)),
       ShowQuestion (trim q))
  ∧ grade a (trim a) = true.
Proof.
  intros Hq Hnq Hna. split; [by apply parseQA_format|]. split.
  - apply requestNewQuestion_success; [|done|done].
    simpl default. unfold trim at 1.
    assert (Hs : trimStart (format q a) = format q a) by reflexivity.
    assert (He : trimEnd a ≠ []).
    { intros He. apply Hna. by rewrite <- trim_trimEnd, He. }
    rewrite Hs. unfold format. rewrite !app_assoc, trimEnd_app_keep by done.
    rewrite <- !app_assoc. fold (format q (trimEnd a)).
    by rewrite parseQA_format, trim_trimEnd.
  - unfold grade. apply bool_decide_eq_true.
    by rewrite !trim_toLowerCase, trim_idemp.
Qed.

Lemma format_round_trip_witness :
  findLabel answerLabel (js "What is 2+2?") = None
  ∧ trim (js "What is 2+2?") ≠ [] ∧ trim (js "4 ") ≠ []
  ∧ requestNewQuestion initial (Responded (Some (format (js "What is 2+2?") (js "4 "))))
      (mkRandom 0 1)
    = (mkState [mkRecord (js "What is 2+2?") (js "4")] ∅ ∅
         (Some (js "What is 2+2?")) (Some (js "4")),
       ShowQuestion (js "What is 2+2?")).
Proof.
  assert (H1 : findLabel answerLabel (js "What is 2+2?") = None) by reflexivity.
  assert (H2 : trim (js "What is 2+2?") ≠ []) by discriminate.
  assert (H3 : trim (js "4 ") ≠ []) by discriminate.
  split; [done|]. split; [done|]. split; [done|].
  destruct (format_round_trip initial _ _ (mkRandom 0 1) H1 H2 H3) as (_ & -> & _).
  reflexivity.
Defined.

Lemma parseQA_no_answer_label text :
  findLabel answerLabel text = None → parseQA text = (None, None).
Proof.
  intros H. rewrite parseQA_specParse. unfold specParse, specStrict, specLoose.
  rewrite H. destruct (findLabel questionLabel text) as [i|]; [|done].
  simpl. by rewrite (findLabel_None_drop _ _ _ H).
Qed.

(** X12: a response whose text holds no answer label, in any letter case, is
    never accepted: GET /question answers with the parse failure and leaves
    the state unchanged; this includes a response without content and an
    empty one. *)
Theorem response_without_answer_label st content rnd :
  findLabel answerLabel (trim (default [] content)) = None →
  requestNewQuestion st (Responded content) rnd = (st, ParseFailure)
  ∧ requestNewQuestion st (Responded None) rnd = (st, ParseFailure)
  ∧ requestNewQuestion st (Responded (Some [])) rnd = (st, ParseFailure).
Proof.
  intros H. unfold requestNewQuestion. by rewrite (parseQA_no_answer_label _ H).
Qed.

Lemma response_without_answer_label_witness :
  findLabel answerLabel (trim (default [] (Some unlabelled))) = None
  ∧ requestNewQuestion armed (Responded (Some unlabelled)) (mkRandom 0 1)
    = (armed, ParseFailure).
Proof.
  assert (H : findLabel answerLabel (trim (default [] (Some unlabelled))) = None)
    by reflexivity.
  split; [done|].
  by destruct (response_without_answer_label armed _ (mkRandom 0 1) H) as [-> _].
Defined.

(** X13: when the strict shape is found, its result decides: if the text
    between the two labels or the text after the answer label is empty or
    white space, GET /question answers with the parse failure and leaves the
    state unchanged, also when the split at the answer label would give a
    question and an answer. *)
Theorem strict_shape_decides st content rnd q a :
  specStrict (trim (default [] content)) = Some (q, a) →
  q = [] ∨ a = [] →
  requestNewQuestion st (Responded content) rnd = (st, ParseFailure).
Proof.
  intros Hs He. unfold requestNewQuestion.
  rewrite parseQA_specParse. unfold specParse. rewrite Hs.
  destruct He as [-> | ->]; [done|]. by destruct q.
Qed.

Lemma strict_shape_decides_witness :
  specStrict (trim (default [] (Some (js "2+2? Answer: Question: Answer: 4"))))
  = Some ([], js "4")
  ∧ yields (specLoose (js "2+2? Answer: Question: Answer: 4")) = true
  ∧ requestNewQuestion armed
      (Responded (Some (js "2+2? Answer: Question: Answer: 4"))) (mkRandom 0 1)
    = (armed, ParseFailure).
Proof.
  assert (H : specStrict (trim (default [] (Some (js "2+2? Answer: Question: Answer: 4"))))
              = Some ([], js "4")) by reflexivity.
  split; [done|]. split; [reflexivity|].
  apply (strict_shape_decides armed _ (mkRandom 0 1) _ _ H). by left.
Defined.

(** ** Split and join *)

Lemma lowerChar_canonicalize x : lowerChar (canonicalize x) = lowerChar x.
Proof. destruct x as [[] [] [] [] [] [] [] []]; reflexivity. Qed.

Lemma charMatches_lowerChar c x : charMatches c x = true → lowerChar x = lowerChar c.
Proof.
  unfold charMatches. rewrite bool_decide_eq_true. intros H.
  by rewrite <- (lowerChar_canonicalize x), H, lowerChar_canonicalize.
Qed.

Lemma ciPrefix_toLowerCase lbl s :
  ciPrefix lbl s = true → toLowerCase (take (length lbl) s) = toLowerCase lbl.
Proof.
  revert s. induction lbl as [|c lbl IH]; intros s H; [done|].
  destruct s as [|x s]; [done|]. simpl in H. apply andb_prop in H as [Hc H].
  simpl. by rewrite (charMatches_lowerChar _ _ Hc), <- (IH _ H).
Qed.

Lemma toLowerCase_app u v : toLowerCase (u ++ v) = toLowerCase u ++ toLowerCase v.
Proof. apply map_app. Qed.

Lemma relabel_toLowerCase s k :
  k ≤ length s → toLowerCase (relabel k s) = toLowerCase (drop k s).
Proof.
  revert k. induction s as [|x s IH]; intros k Hk.
  - by replace k with 0 by (simpl in Hk; lia).
  - destruct k as [|k]; [|simpl; apply IH; simpl in Hk; lia].
    change (relabel 0 (x :: s))
      with (if ciPrefix answerLabel (x :: s) then js "Answer:" ++ relabel 6 s
            else x :: relabel 0 s).
    destruct (ciPrefix answerLabel (x :: s)) eqn:E.
    + pose proof (ciPrefix_length _ _ E) as Hl. change (length answerLabel) with 7 in Hl.
      simpl in Hl. rewrite toLowerCase_app, IH by lia.
      change (js "Answer:") with answerLabel.
      rewrite <- (ciPrefix_toLowerCase _ _ E), <- toLowerCase_app.
      change (length answerLabel) with 7.
      change (drop 6 s) with (drop 7 (x :: s)). by rewrite take_drop.
    + change (toLowerCase (x :: relabel 0 s))
        with (lowerChar x :: toLowerCase (relabel 0 s)).
      by rewrite IH by lia.
Qed.

(** X14: splitting a text at the answer label and joining the pieces with
    'Answer:', as line 119 does, changes at most the letter case of the
    labels: the result has the length of the text, equals it up to letter
    case, and is graded like it. *)
Theorem split_join_keeps_text text :
  toLowerCase (join (js "Answer:") (split answerRe text)) = toLowerCase text
  ∧ length (join (js "Answer:") (split answerRe text)) = length text
  ∧ ∀ submitted,
      grade submitted (join (js "Answer:") (split answerRe text))
      = grade submitted text.
Proof.
  assert (H : toLowerCase (join (js "Answer:") (split answerRe text))
              = toLowerCase text).
  { rewrite join_split_answer. unfold rejoin.
    by rewrite relabel_toLowerCase by lia. }
  split; [done|]. split.
  - apply (f_equal length) in H. unfold toLowerCase in H.
    by rewrite !length_map in H.
  - intros submitted. unfold grade. by rewrite H.
Qed.

(** ** Repeated responses *)

(** X16: the same response received twice in a row has the effect and the
    answer of receiving it once: the second GET /question adds no record
    and arms the same question and answer. *)
Theorem same_response_twice st content rnd rnd' :
  requestNewQuestion (fst (requestNewQuestion st (Responded content) rnd))
    (Responded content) rnd'
  = requestNewQuestion st (Responded content) rnd.
Proof.
  unfold requestNewQuestion.
  destruct (parseQA _) as [q a]. cbv beta iota zeta.
  destruct (negb (truthy q) || negb (truthy a)); [done|].
  cbn [fst triviaQuestions userScore questionNumber].
  by rewrite storeTriviaQuestion_present by apply storeTriviaQuestion_stored.
Qed.

(** ** The pages *)

Lemma renderChat_lookup overrides k :
  renderChat overrides !! k
  = match overrides !! k with Some v => Some v | None => defaults !! k end.
Proof.
  unfold renderChat. rewrite lookup_union.
  by destruct (overrides !! k), (defaults !! k).
Qed.

Lemma renderChat_dom overrides :
  dom overrides ⊆ dom defaults → dom (renderChat overrides) = dom defaults.
Proof. unfold renderChat. rewrite dom_union_L. apply subseteq_union_1_L. Qed.

(** X17: every page that [renderChat] builds for GET /game, GET /question
    and POST /answer defines exactly the six variables of the defaults, each
    override taking the place of its default; and the page of GET /question
    carries the question only: its answer, user answer, verdict and error
    are null. *)
Theorem pages_define_all_variables :
  (∀ overrides, dom overrides ⊆ dom defaults →
     dom (renderChat overrides) = dom defaults)
  ∧ dom gamePage = dom defaults
  ∧ (∀ r page, questionPage r = Some page → dom page = dom defaults)
  ∧ (∀ r page, answerPage r = Some page → dom page = dom defaults)
  ∧ ∀ st src rnd page,
      questionPage (snd (requestNewQuestion st src rnd)) = Some page →
      (∃ q, page !! "question" = Some (VText q))
      ∧ page !! "answer" = Some VNull
      ∧ page !! "userAnswer" = Some VNull
      ∧ page !! "correct" = Some VNull
      ∧ page !! "error" = Some VNull.
Proof.
  split; [apply renderChat_dom|]. split; [|split; [|split]].
  - apply renderChat_dom. rewrite dom_empty_L. apply empty_subseteq.
  - intros [q| | |] page [= <-]. apply renderChat_dom.
    apply (bool_decide_unpack _). by vm_compute.
  - intros [|q a u c|] page [= <-]; apply renderChat_dom;
      apply (bool_decide_unpack _); by vm_compute.
  - intros st src rnd page.
    destruct (snd (requestNewQuestion st src rnd)) as [q| | |]; intros [= <-].
    split; [by exists q|]. by rewrite !renderChat_lookup.
Qed.

Lemma pages_define_all_variables_witness :
  (dom ({["question" := VText (js "2+2?")]} : gmap string viewValue) ⊆ dom defaults)
  ∧ dom (renderChat {["question" := VText (js "2+2?")]}) = dom defaults.
Proof.
  assert (H : dom ({["question" := VText (js "2+2?")]} : gmap string viewValue)
              ⊆ dom defaults).
  { apply (bool_decide_unpack _). by vm_compute. }
  split; [done|]. by apply (proj1 pages_define_all_variables).
Defined.

(** ** The question of the loose shape *)

Lemma ciPrefix_app lbl u v : ciPrefix lbl u = true → ciPrefix lbl (u ++ v) = true.
Proof.
  revert u. induction lbl as [|c lbl IH]; intros u H; [done|].
  destruct u as [|x u]; [done|]. simpl in *.
  apply andb_prop in H as [-> H]. by apply IH.
Qed.

Lemma findLabel_occurrence lbl s k :
  ciPrefix lbl (drop k s) = true → ∃ j, findLabel lbl s = Some j ∧ j ≤ k.
Proof.
  revert k. induction s as [|x s IH]; intros k H; rewrite findLabel_unfold.
  - rewrite drop_nil in H. rewrite H. exists 0. split; [done|lia].
  - destruct (ciPrefix lbl (x :: s)) eqn:E; [exists 0; split; [done|lia]|].
    destruct k as [|k]; [simpl in H; congruence|].
    destruct (IH k H) as (j & -> & Hj). exists (S j). split; [done|lia].
Qed.

(** X18: when the strict pattern does not match and the split at the answer
    label gives at least two pieces, the first piece holds no question
    label: the replacement of line 118 removes nothing, and the question of
    the loose shape is the trimmed text before the first answer label. *)
Theorem loose_question_is_first_piece text :
  exec questionAnswerRe text = None →
  2 ≤ length (split answerRe text) →
  replace questionRe [] (hd [] (split answerRe text)) = hd [] (split answerRe text)
  ∧ ∃ j, findLabel answerLabel text = Some j
         ∧ fst (parseQA text) = Some (trim (take j text)).
Proof.
  intros Hx Hlen.
  assert (Hs : specStrict text = None).
  { pose proof (strictMatch_groups text) as H. unfold exec in Hx.
    rewrite execFrom_strict in Hx. by rewrite Hx in H. }
  rewrite split_answer in *.
  destruct (findLabel answerLabel text) as [j|] eqn:Hj; [|simpl in Hlen; lia].
  simpl hd.
  assert (Hr : replace questionRe [] (take j text) = take j text).
  { rewrite replace_questionRe. unfold stripLabel.
    destruct (findLabel questionLabel (take j text)) as [i|] eqn:Hi; [|done].
    exfalso. destruct (findLabel_Some _ _ _ Hi) as [Hp Hl].
    destruct (findLabel_Some _ _ _ Hj) as [Hpa _].
    change (length questionLabel) with 9 in *. rewrite length_take in Hl.
    assert (Hq : ciPrefix questionLabel (drop i text) = true).
    { rewrite <- (take_drop j text), drop_app_le by (rewrite length_take; lia).
      by apply ciPrefix_app. }
    destruct (findLabel_occurrence _ _ _ Hq) as (i' & Hi' & Hle).
    unfold specStrict in Hs. rewrite Hi' in Hs. simpl in Hs.
    change (length questionLabel) with 9 in *.
    destruct (findLabel_occurrence answerLabel (drop (i' + 9) text) (j - (i' + 9)))
      as (j' & Hj' & _).
    { rewrite drop_drop. by replace (i' + 9 + (j - (i' + 9))) with j by lia. }
    by rewrite Hj' in Hs. }
  split; [done|]. exists j. split; [done|].
  unfold parseQA. rewrite Hx, split_answer, Hj.
  pose proof (split_answer_length (drop (j + 7) text)).
  simpl length.
  destruct (Nat.leb_spec 2 (S (length (split answerRe (drop (j + 7) text))))); [|lia].
  simpl. by rewrite Hr.
Qed.

Lemma loose_question_is_first_piece_witness :
  exec questionAnswerRe (js "2+2? answer: 4") = None
  ∧ 2 ≤ length (split answerRe (js "2+2? answer: 4"))
  ∧ fst (parseQA (js "2+2? answer: 4")) = Some (js "2+2?").
Proof.
  assert (H1 : exec questionAnswerRe (js "2+2? answer: 4") = None) by reflexivity.
  assert (H2 : 2 ≤ length (split answerRe (js "2+2? answer: 4"))) by (simpl; lia).
  split; [done|]. split; [done|].
  destruct (loose_question_is_first_piece _ H1 H2) as (_ & j & Hj & ->).
  assert (j = 5) as -> by (vm_compute in Hj; congruence).
  reflexivity.
Defined.
